(** * RaufPreview: the section-snapping vertical scroller

    A shallow embedding of [assets/js/vertical-nav.js] and the properties of
    its scroll controller, followed by the two effects of [a-img/script.js]:
    the path revealed by scrolling and the highlight that follows the
    pointer.

    Numbers.  JavaScript numbers are binary64 floats.  Slide indices, slide
    counts, element heights and [Date.now()] readings are integers far below
    2^53 and are held in [Z].  The controller is first written over exact
    rationals [Q] for its fractional quantities (the wheel delta,
    [scrollTop], the eased position); the properties of the curve as a curve
    (its bounds, its monotonicity) and of the state machine are stated
    there.  Where a property names a number the program produces or the
    outcome of a comparison of fractional quantities, rounding is
    observable, and the binary64 primitives of the kernel are used: for the
    target offset under [Math.floor] in [navigateToSlide], and in module
    [Binary64] for the room test of the wheel listener and the value the
    manual animation writes, and in module [Squiggle64] for the threshold
    of the dash offset.  The pointer highlight of [a-img/script.js] is in
    binary64 throughout. *)

From Stdlib Require Import ZArith QArith Qround List String Bool Lia.
From Stdlib Require Import DecimalString Floats Uint63.
From Stdlib Require Import Qabs Qminmax Lqa PeanoNat Permutation.
Import ListNotations.

Set Warnings "-register-all".
Local Open Scope Z_scope.

(** ** DOM nodes, as far as [getCount] looks at them *)

Module Dom.

(** [nodeType] is the numeric code of the DOM: 1 element, 3 text,
    8 comment. *)
Inductive Node : Type :=
  mkNode (type : Z) (children : list Node).

Definition nodeType (n : Node) : Z :=
  match n with mkNode t _ => t end.

Definition childNodes (n : Node) : list Node :=
  match n with mkNode _ cs => cs end.

Definition ELEMENT_NODE : Z := 1.
Definition TEXT_NODE : Z := 3.
Definition COMMENT_NODE : Z := 8.

(** [window.getCount]: the loop over [parent.childNodes] carries the
    accumulator [relevantChildren]. *)
Fixpoint getCount (parent : Node) (getChildrensChildren : bool) : Z :=
  match parent with
  | mkNode _ nodes =>
      (fix loop (rest : list Node) (relevantChildren : Z) : Z :=
         match rest with
         | [] => relevantChildren
         | child :: rest' =>
             if negb (nodeType child =? 3) then
               let nested :=
                 if getChildrensChildren
                 then relevantChildren + getCount child true
                 else relevantChildren in
               loop rest' (nested + 1)
             else loop rest' relevantChildren
         end) nodes 0
  end.

(** The same loop, named, for the non-recursive call
    [getCount(parent, false)]. *)
Fixpoint countLoop (rest : list Node) (relevantChildren : Z) : Z :=
  match rest with
  | [] => relevantChildren
  | child :: rest' =>
      if negb (nodeType child =? 3)
      then countLoop rest' (relevantChildren + 1)
      else countLoop rest' relevantChildren
  end.

(** What the documentation of [getCount] announces: the element nodes
    among the direct children. *)
Definition elementChildren (parent : Node) : list Node :=
  filter (fun c => nodeType c =? ELEMENT_NODE) (childNodes parent).

(** What the loop keeps: every child that is not a text node. *)
Definition nonTextChildren (parent : Node) : list Node :=
  filter (fun c => negb (nodeType c =? TEXT_NODE)) (childNodes parent).

Definition element (children : list Node) : Node := mkNode ELEMENT_NODE children.
Definition text : Node := mkNode TEXT_NODE [].
Definition comment : Node := mkNode COMMENT_NODE [].

(** The loop again, named, for the recursive call [getCount(parent, true)]. *)
Fixpoint deepLoop (rest : list Node) (relevantChildren : Z) : Z :=
  match rest with
  | [] => relevantChildren
  | child :: rest' =>
      if negb (nodeType child =? 3)
      then deepLoop rest' (relevantChildren + getCount child true + 1)
      else deepLoop rest' relevantChildren
  end.

(** The number of nodes of a tree, its root included. *)
Fixpoint size (n : Node) : Z :=
  match n with
  | mkNode _ nodes =>
      1 + (fix sum (l : list Node) : Z :=
             match l with
             | [] => 0
             | c :: r => size c + sum r
             end) nodes
  end.

(** No node of the tree is a text node. *)
Fixpoint noText (n : Node) : bool :=
  match n with
  | mkNode t nodes =>
      negb (t =? TEXT_NODE)
      && (fix all (l : list Node) : bool :=
            match l with
            | [] => true
            | c :: r => noText c && all r
            end) nodes
  end.

End Dom.

(** ** JavaScript numbers *)

Module Number.

(** [x < y] on exact rationals. *)
Definition ltb (x y : Q) : bool := negb (Qle_bool y x).

(** The binary64 value of an integer (exact below 2^53). *)
Definition ofZ (z : Z) : float :=
  if z <? 0
  then PrimFloat.opp (PrimFloat.of_uint63 (Uint63.of_Z (- z)))
  else PrimFloat.of_uint63 (Uint63.of_Z z).

(** [Math.floor] of a binary64 number.  A finite float is [m * 2^e], and
    [Z.shiftl] by a negative amount is the flooring division by a power
    of two.  [Math.floor] leaves NaN and the infinities as they are; they
    have no integer value, and 0 stands for them here. *)
Definition floor (x : float) : Z :=
  match Prim2SF x with
  | S754_finite s m e => Z.shiftl (if s then Z.neg m else Z.pos m) e
  | _ => 0
  end.

(** The exact value of a finite binary64 number. *)
Definition toQ (x : float) : Q :=
  match Prim2SF x with
  | S754_finite s m e =>
      (inject_Z (if s then Z.neg m else Z.pos m) * Qpower 2 e)%Q
  | _ => 0
  end.

End Number.

(** ** Easing *)

Definition SCROLL_DURATION : Z := 800.

(** [easingOutQuint]: the JavaScript expression reassigns [t] inside the
    product and multiplies from the left. *)
Definition easingOutQuint (x t b c d : Q) : Q :=
  let t := (t / d - 1)%Q in
  (c * (t * t * t * t * t + 1) + b)%Q.

(** ** The state of the page *)

(** An element as the wheel listener and the animation read it. *)
Record Element : Type := mkElement {
  overflowY : string;
  scrollTop : Q;
  clientHeight : Z;
  scrollHeight : Z
}.

(** An indicator button: its two ARIA attributes, absent until set.
    [setAttribute] stores strings. *)
Record Indicator : Type := mkIndicator {
  ariaLabel : option string;
  ariaPressed : option string
}.

(** The completion callbacks of the program: there is one, the arrow
    function [navigateToSlide] passes to [smoothScroll]. *)
Inductive Callback : Type :=
  | ReleaseLock.

(** The closure of one [smoothScrollPolyfill] call: its constants, its
    [interrupt] flag, whether its [cancel] listener is registered on the
    node for each event type, and whether a frame callback for its [step]
    is pending. *)
Record Polyfill : Type := mkPolyfill {
  startTime : Z;
  offset : Q;
  gap : Q;
  target : Q;
  onComplete : option Callback;
  interrupt : bool;
  wheelCancel : bool;
  touchstartCancel : bool;
  frameRequested : bool
}.

(** The closure of the [DOMContentLoaded] handler.  [animation] holds the
    closure of the latest polyfill call, [timeouts] the callbacks handed to
    [setTimeout] that have not fired yet. *)
Record State : Type := mkState {
  hasNativeSmoothScroll : bool;
  slideCount : Z;
  currentSlideIndex : Z;
  isScrolling : bool;
  indicators : list Indicator;
  scroller : Element;
  animation : option Polyfill;
  timeouts : list Callback
}.

(** What a handler does to the event and to the scroller. *)
Inductive Effect : Type :=
  | PreventDefault
  | StopPropagation
  | ScrollToSmooth (top : Q)
  | SetScrollTop (v : Q).

Definition set_isScrolling (b : bool) (st : State) : State :=
  mkState (hasNativeSmoothScroll st) (slideCount st) (currentSlideIndex st) b
          (indicators st) (scroller st) (animation st) (timeouts st).

Definition set_currentSlideIndex (i : Z) (st : State) : State :=
  mkState (hasNativeSmoothScroll st) (slideCount st) i (isScrolling st)
          (indicators st) (scroller st) (animation st) (timeouts st).

Definition set_indicators (l : list Indicator) (st : State) : State :=
  mkState (hasNativeSmoothScroll st) (slideCount st) (currentSlideIndex st)
          (isScrolling st) l (scroller st) (animation st) (timeouts st).

Definition set_scroller (e : Element) (st : State) : State :=
  mkState (hasNativeSmoothScroll st) (slideCount st) (currentSlideIndex st)
          (isScrolling st) (indicators st) e (animation st) (timeouts st).

Definition set_animation (a : option Polyfill) (st : State) : State :=
  mkState (hasNativeSmoothScroll st) (slideCount st) (currentSlideIndex st)
          (isScrolling st) (indicators st) (scroller st) a (timeouts st).

Definition set_timeouts (l : list Callback) (st : State) : State :=
  mkState (hasNativeSmoothScroll st) (slideCount st) (currentSlideIndex st)
          (isScrolling st) (indicators st) (scroller st) (animation st) l.

(** [node.scrollTop = v]. *)
Definition set_scrollTop (v : Q) (st : State) : State :=
  let e := scroller st in
  set_scroller (mkElement (overflowY e) v (clientHeight e) (scrollHeight e)) st.

Definition runCallback (cb : Callback) (st : State) : State :=
  match cb with
  | ReleaseLock => set_isScrolling false st
  end.

(** ** The manual animation, [smoothScrollPolyfill] *)

(** [cleanup]: both [removeEventListener] calls. *)
Definition cleanup (a : Polyfill) : Polyfill :=
  mkPolyfill (startTime a) (offset a) (gap a) (target a) (onComplete a)
             (interrupt a) false false (frameRequested a).

(** [cancel]: raise the flag, then [cleanup]. *)
Definition cancel (a : Polyfill) : Polyfill :=
  cleanup
    (mkPolyfill (startTime a) (offset a) (gap a) (target a) (onComplete a)
                true (wheelCancel a) (touchstartCancel a) (frameRequested a)).

(** [requestAnimationFrame(step)] and its firing. *)
Definition set_frameRequested (b : bool) (a : Polyfill) : Polyfill :=
  mkPolyfill (startTime a) (offset a) (gap a) (target a) (onComplete a)
             (interrupt a) (wheelCancel a) (touchstartCancel a) b.

(** [step], run when [Date.now()] reads [now]. *)
Definition step (now : Z) (a : Polyfill) (st : State) : State * list Effect :=
  let elapsed := now - startTime a in
  let percentage := (inject_Z elapsed / inject_Z SCROLL_DURATION)%Q in
  if interrupt a then (st, [])
  else if Number.ltb 1 percentage then
    let st := set_scrollTop (target a) st in
    let st := set_animation (Some (cleanup a)) st in
    let st := match onComplete a with
              | Some cb => runCallback cb st
              | None => st
              end in
    (st, [SetScrollTop (target a)])
  else
    let v := easingOutQuint 0 (inject_Z elapsed) (offset a) (gap a)
                            (inject_Z SCROLL_DURATION) in
    let st := set_scrollTop v st in
    (set_animation (Some (set_frameRequested true a)) st, [SetScrollTop v]).

(** [smoothScrollPolyfill(node, 'scrollTop', target, onComplete)].  [t0] is
    what [Date.now()] returns for [startTime], [t1] what it returns inside
    the first, synchronous call of [step]. *)
Definition smoothScrollPolyfill (target : Q) (onComplete : option Callback)
    (t0 t1 : Z) (st : State) : State * list Effect :=
  let offset := scrollTop (scroller st) in
  let gap := (target - offset)%Q in
  let a := mkPolyfill t0 offset gap target onComplete false true true false in
  step t1 a (set_animation (Some a) st).

(** [smoothScroll(node, topOrLeft, true, onComplete)]: the program scrolls
    vertically only. *)
Definition smoothScroll (topOrLeft : Q) (onComplete : option Callback)
    (t0 t1 : Z) (st : State) : State * list Effect :=
  if hasNativeSmoothScroll st then
    let st := match onComplete with
              | Some cb => set_timeouts (timeouts st ++ [cb]) st
              | None => st
              end in
    (st, [ScrollToSmooth topOrLeft])
  else smoothScrollPolyfill topOrLeft onComplete t0 t1 st.

(** ** The controller *)

Fixpoint forEach {A : Type} (f : A -> nat -> A) (l : list A) (i : nat) : list A :=
  match l with
  | [] => []
  | x :: l' => f x i :: forEach f l' (S i)
  end.

(** [String(i === activeIndex)]. *)
Definition booleanString (b : bool) : string :=
  if b then "true"%string else "false"%string.

Definition setAriaPressed (activeIndex : Z) (l : list Indicator) : list Indicator :=
  forEach (fun indicator i =>
             mkIndicator (ariaLabel indicator)
                         (Some (booleanString (Z.of_nat i =? activeIndex))))
          l 0.

Definition setAriaLabels (l : list Indicator) : list Indicator :=
  forEach (fun indicator i =>
             mkIndicator
               (Some ("Scroll to item #"
                        ++ NilEmpty.string_of_uint (Nat.to_uint (i + 1)))%string)
               (ariaPressed indicator))
          l 0.

(** [Math.floor(scroller.scrollHeight * (currentSlideIndex / slideCount))],
    in binary64 as the engine computes it. *)
Definition targetScrollTop (scrollHeight currentSlideIndex slideCount : Z) : Z :=
  Number.floor
    (PrimFloat.mul (Number.ofZ scrollHeight)
                   (PrimFloat.div (Number.ofZ currentSlideIndex)
                                  (Number.ofZ slideCount))).

Definition navigateToSlide (index : Z) (t0 t1 : Z) (st : State)
    : State * list Effect :=
  if isScrolling st || (index <? 0) || (index >=? slideCount st) then (st, [])
  else
    let st := set_isScrolling true st in
    let st := set_currentSlideIndex index st in
    let st := set_indicators (setAriaPressed (currentSlideIndex st) (indicators st)) st in
    let top := targetScrollTop (scrollHeight (scroller st))
                               (currentSlideIndex st) (slideCount st) in
    smoothScroll (inject_Z top) (Some ReleaseLock) t0 t1 st.

(** The click listener of indicator [i]. *)
Definition clickListener (i : nat) (t0 t1 : Z) (st : State) : State * list Effect :=
  let (st', fx) := navigateToSlide (Z.of_nat i) t0 t1 st in
  (st', PreventDefault :: StopPropagation :: fx).

(** A wheel event on the scroller: its [deltaY], and the elements the
    listener's loop visits, from [e.target] upwards through
    [parentElement], the scroller excluded. *)
Record WheelEvent : Type := mkWheel {
  deltaY : Q;
  path : list Element
}.

Definition scrollDirection (e : WheelEvent) : Z :=
  if Number.ltb 0 (deltaY e) then 1 else -1.

(** The [while] loop of the wheel listener; [true] when it returns from
    inside the loop, leaving the event to native scrolling. *)
Fixpoint allowNativeScroll (direction : Z) (elements : list Element) : bool :=
  match elements with
  | [] => false
  | currentElement :: parents =>
      let isScrollable :=
        (overflowY currentElement =? "auto")%string
        || (overflowY currentElement =? "scroll")%string in
      if isScrollable then
        let canScrollDown :=
          Number.ltb (scrollTop currentElement + inject_Z (clientHeight currentElement))
                     (inject_Z (scrollHeight currentElement) - 1) in
        let canScrollUp := Number.ltb 0 (scrollTop currentElement) in
        if (0 <? direction) && canScrollDown then true
        else if (direction <? 0) && canScrollUp then true
        else allowNativeScroll direction parents
      else allowNativeScroll direction parents
  end.

(** The three ways out of the wheel listener. *)
Inductive WheelExit : Type :=
  | Locked
  | Delegated
  | Navigate (nextSlideIndex : Z).

Definition wheelExit (e : WheelEvent) (st : State) : WheelExit :=
  if isScrolling st then Locked
  else if allowNativeScroll (scrollDirection e) (path e) then Delegated
  else Navigate (currentSlideIndex st + scrollDirection e).

Definition wheelListener (e : WheelEvent) (t0 t1 : Z) (st : State)
    : State * list Effect :=
  match wheelExit e st with
  | Locked => (st, [PreventDefault])
  | Delegated => (st, [])
  | Navigate nextSlideIndex =>
      let (st', fx) := navigateToSlide nextSlideIndex t0 t1 st in
      (st', PreventDefault :: fx)
  end.

(** The [DOMContentLoaded] handler; [None] when the scroller is missing. *)
Definition DOMContentLoaded (native : bool) (scroller : option (Dom.Node * Element))
    (indicators : list Indicator) : option State :=
  match scroller with
  | None => None
  | Some (tree, box) =>
      Some (mkState native (Dom.getCount tree false) 0 false
                    (setAriaPressed 0 (setAriaLabels indicators)) box None [])
  end.

(** ** The event loop *)

(** What the browser delivers to the page.  The events that can start an
    animation carry the two clock readings of [smoothScrollPolyfill];
    [AnimationFrame] carries the reading of the [step] it runs.  [Layout]
    is the browser changing the scroller's box or scroll position on its
    own (native scrolling, a resize). *)
Inductive Event : Type :=
  | Click (i : nat) (t0 t1 : Z)
  | Wheel (e : WheelEvent) (t0 t1 : Z)
  | TouchStart
  | AnimationFrame (now : Z)
  | TimeoutFired
  | Layout (box : Element).

Definition cancelAnimation (st : State) : State :=
  match animation st with
  | Some a => set_animation (Some (cancel a)) st
  | None => st
  end.

Definition wheelCancelRegistered (st : State) : bool :=
  match animation st with
  | Some a => wheelCancel a
  | None => false
  end.

Definition touchstartCancelRegistered (st : State) : bool :=
  match animation st with
  | Some a => touchstartCancel a
  | None => false
  end.

(** One event.  A wheel event on the scroller reaches the wheel listener
    and, when registered, the [cancel] of the running animation.  The two
    act on disjoint variables; [cancel] is applied first here so that it
    acts on the closure whose listener was registered when the dispatch
    began, not on one the wheel listener creates during it, whose
    listeners the browser does not call for the event being dispatched.
    In the states a page reaches the order makes no difference
    ([dispatch_wheel_order]). *)
Definition dispatch (ev : Event) (st : State) : State * list Effect :=
  match ev with
  | Click i t0 t1 =>
      if (i <? List.length (indicators st))%nat then clickListener i t0 t1 st
      else (st, [])
  | Wheel e t0 t1 =>
      let st := if wheelCancelRegistered st then cancelAnimation st else st in
      wheelListener e t0 t1 st
  | TouchStart =>
      (if touchstartCancelRegistered st then cancelAnimation st else st, [])
  | AnimationFrame now =>
      match animation st with
      | Some a =>
          if frameRequested a then
            let a := set_frameRequested false a in
            step now a (set_animation (Some a) st)
          else (st, [])
      | None => (st, [])
      end
  | TimeoutFired =>
      match timeouts st with
      | cb :: rest => (runCallback cb (set_timeouts rest st), [])
      | [] => (st, [])
      end
  | Layout box => (set_scroller box st, [])
  end.

Fixpoint run (evs : list Event) (st : State) : State * list Effect :=
  match evs with
  | [] => (st, [])
  | ev :: evs' =>
      let (st1, fx1) := dispatch ev st in
      let (st2, fx2) := run evs' st1 in
      (st2, fx1 ++ fx2)
  end.

(** The states of a page that loaded. *)
Inductive reachable : State -> Prop :=
  | reachable_loaded native tree box indicators st :
      DOMContentLoaded native (Some (tree, box)) indicators = Some st ->
      reachable st
  | reachable_dispatch ev st :
      reachable st -> reachable (fst (dispatch ev st)).

(** ** Vocabulary of the properties *)

Definition pressed (indicator : Indicator) : bool :=
  match ariaPressed indicator with
  | Some v => (v =? "true")%string
  | None => false
  end.

Definition writesScrollTop (fx : Effect) : bool :=
  match fx with
  | SetScrollTop _ => true
  | _ => false
  end.

(** An animation that neither listens nor waits for a frame. *)
Definition inert (a : option Polyfill) : Prop :=
  match a with
  | Some a => wheelCancel a = false /\ touchstartCancel a = false
              /\ frameRequested a = false
  | None => True
  end.

(** An element that scrolls on its own: computed [overflow-y] is [auto] or
    [scroll]. *)
Definition scrollableY (el : Element) : Prop :=
  overflowY el = "auto"%string \/ overflowY el = "scroll"%string.

(** Scroll room left in a direction: downwards up to a margin of one
    pixel, upwards as long as the element is not at its top. *)
Definition hasRoom (direction : Z) (el : Element) : Prop :=
  (0 < direction
   /\ (scrollTop el + inject_Z (clientHeight el) < inject_Z (scrollHeight el) - 1)%Q)
  \/ (direction < 0 /\ (0 < scrollTop el)%Q).

(** Some element between the target and the scroller takes the event. *)
Definition delegates (direction : Z) (elements : list Element) : Prop :=
  Exists (fun el => scrollableY el /\ hasRoom direction el) elements.

(** What holds of every reachable state: the index stays within the
    slides, a free lock means nothing is in flight, at most one timer is
    pending, and the two animation paths never mix. *)
Record coherent (st : State) : Prop := mkCoherent {
  index_lower : 0 <= currentSlideIndex st;
  index_upper : currentSlideIndex st < slideCount st \/ currentSlideIndex st = 0;
  free_inert : isScrolling st = false -> inert (animation st) /\ timeouts st = [];
  polyfill_no_timeout : hasNativeSmoothScroll st = false -> timeouts st = [];
  one_timeout : (List.length (timeouts st) <= 1)%nat;
  native_no_polyfill : hasNativeSmoothScroll st = true -> animation st = None
}.

(** The state a cancelled animation leaves behind: the lock held, nothing
    pending that would release it, the closure interrupted and detached. *)
Definition stuck (st : State) : Prop :=
  isScrolling st = true
  /\ timeouts st = []
  /\ exists a, animation st = Some a
              /\ interrupt a = true
              /\ wheelCancel a = false
              /\ touchstartCancel a = false.

(** The event reaches a [cancel] listener of the animation [a]. *)
Definition reachesCancel (ev : Event) (a : Polyfill) : Prop :=
  match ev with
  | Wheel _ _ _ => wheelCancel a = true
  | TouchStart => touchstartCancel a = true
  | _ => False
  end.

Definition userInput (ev : Event) : Prop :=
  match ev with
  | Wheel _ _ _ | TouchStart => True
  | _ => False
  end.

(** No effect in the list assigns the scroll offset. *)
Definition noWrites (fx : list Effect) : Prop :=
  Forall (fun f => writesScrollTop f = false) fx.

(** A plain block element, and a scrollable panel. *)
Definition block : Element := mkElement "visible" 0 600 600.
Definition panel (top : Q) : Element := mkElement "auto" top 300 1000.

(** A page of [n] slides of 1080 pixels with one indicator per slide. *)
Definition slides (n : nat) : Dom.Node :=
  Dom.element (repeat (Dom.element []) n).

Definition page (native : bool) (n : nat) : State :=
  mkState native (Dom.getCount (slides n) false) 0 false
          (setAriaPressed 0 (setAriaLabels (repeat (mkIndicator None None) n)))
          (mkElement "hidden" 0 1080 (1080 * Z.of_nat n)) None [].

(** ** Further vocabulary *)

(** [v] lies between [lo] and [hi], whichever is the larger. *)
Definition between (lo v hi : Q) : Prop :=
  (lo <= v /\ v <= hi)%Q \/ (hi <= v /\ v <= lo)%Q.

(** The label [setAriaLabels] gives the indicator at position [i]. *)
Definition itemLabel (i : nat) : string :=
  ("Scroll to item #" ++ NilEmpty.string_of_uint (Nat.to_uint (i + 1)))%string.

(** Every indicator carries its label and is pressed exactly when it is
    the one of the current slide. *)
Definition mirrors (st : State) : Prop :=
  forall k indicator,
    nth_error (indicators st) k = Some indicator ->
    pressed indicator = (Z.of_nat k =? currentSlideIndex st)
    /\ ariaLabel indicator = Some (itemLabel k).

Definition callsScrollTo (fx : Effect) : bool :=
  match fx with
  | ScrollToSmooth _ => true
  | _ => false
  end.

(** No effect in the list is a native [scrollTo]. *)
Definition noScrollTo (fx : list Effect) : Prop :=
  Forall (fun f => callsScrollTo f = false) fx.

(** The closure of the animation holds the gap between its target and
    the offset it started from. *)
Definition closed (st : State) : Prop :=
  forall a, animation st = Some a -> (gap a == target a - offset a)%Q.

Definition isTimeout (ev : Event) : bool :=
  match ev with
  | TimeoutFired => true
  | _ => false
  end.

(** The state between a native [scrollTo] and its timer. *)
Definition awaitingTimeout (i : Z) (st : State) : Prop :=
  hasNativeSmoothScroll st = true
  /\ isScrolling st = true
  /\ timeouts st = [ReleaseLock]
  /\ animation st = None
  /\ currentSlideIndex st = i.

(** An event that neither cancels the manual animation nor carries a
    clock reading past [deadline]. *)
Definition quiet (deadline : Z) (ev : Event) : Prop :=
  match ev with
  | Wheel _ _ _ | TouchStart => False
  | AnimationFrame now => now <= deadline
  | _ => True
  end.

(** The manual animation towards [top], started at [t0], in flight. *)
Definition animating (t0 : Z) (top : Q) (i : Z) (st : State) : Prop :=
  hasNativeSmoothScroll st = false
  /\ isScrolling st = true
  /\ timeouts st = []
  /\ currentSlideIndex st = i
  /\ exists a, animation st = Some a
               /\ startTime a = t0
               /\ target a = top
               /\ onComplete a = Some ReleaseLock
               /\ interrupt a = false
               /\ wheelCancel a = true
               /\ touchstartCancel a = true
               /\ frameRequested a = true.

(** ** The path revealed by scrolling, [a-img/script.js]

    [style.strokeDashoffset] receives the decimal rendering of a number;
    the number stands for it here. *)

Module Squiggle.

(** What [updatePath] reads: the scroll position and heights of the about
    section, and those of the window. *)
Record Page : Type := mkPage {
  sectionScrollTop : Q;
  sectionScrollHeight : Z;
  sectionClientHeight : Z;
  scrollY : Q;
  bodyScrollHeight : Z;
  innerHeight : Z
}.

(** The closure of the handler.  [strokeDashoffset] is the number whose
    rendering was last assigned to [maskPath.style.strokeDashoffset];
    [requested] holds the handles of the frame callbacks asked for and not
    run yet, [issued] the last handle [requestAnimationFrame] returned. *)
Record State : Type := mkState {
  pathLength : Q;
  isInAboutSection : bool;
  rafId : option nat;
  lastOffset : Q;
  strokeDashoffset : Q;
  requested : list nat;
  issued : nat
}.

Definition distance (st : State) (page : Page) : Q :=
  if isInAboutSection st then sectionScrollTop page else scrollY page.

Definition totalDistance (st : State) (page : Page) : Q :=
  if isInAboutSection st
  then inject_Z (sectionScrollHeight page - sectionClientHeight page)
  else inject_Z (bodyScrollHeight page - innerHeight page).

Definition percentage (distance totalDistance : Q) : Q :=
  if Number.ltb 0 totalDistance
  then Qmin 1 (Qmax 0 (distance / totalDistance))
  else 0.

Definition offset (st : State) (page : Page) : Q :=
  (pathLength st * (1 - percentage (distance st page) (totalDistance st page)))%Q.

(** [updatePath], with the page as it is when the callback runs. *)
Definition updatePath (page : Page) (st : State) : State :=
  let offset := offset st page in
  if Number.ltb (1 # 2) (Qabs (offset - lastOffset st))
  then mkState (pathLength st) (isInAboutSection st) None offset offset
               (requested st) (issued st)
  else mkState (pathLength st) (isInAboutSection st) None (lastOffset st)
               (strokeDashoffset st) (requested st) (issued st).

(** [scroll], the throttled listener. *)
Definition scroll (st : State) : State :=
  match rafId st with
  | None =>
      let handle := S (issued st) in
      mkState (pathLength st) (isInAboutSection st) (Some handle) (lastOffset st)
              (strokeDashoffset st) (requested st ++ [handle]) handle
  | Some _ => st
  end.

(** The handler up to its two early returns: [svg] says whether the
    squiggle was found, [aboutSection] whether the section exists and
    contains it, [maskPath] gives the length of the mask path if there is
    one. *)
Definition DOMContentLoaded (svg : bool) (aboutSection : option bool)
    (maskPath : option Q) : option State :=
  if svg then
    match maskPath with
    | None => None
    | Some pathLength =>
        let isInAboutSection :=
          match aboutSection with
          | Some containsSvg => containsSvg
          | None => false
          end in
        Some (mkState pathLength isInAboutSection None pathLength pathLength [] 0)
    end
  else None.

(** A scroll event, a frame (the browser runs the oldest callback
    requested), and the timer that calls [updatePath] directly. *)
Inductive Event : Type :=
  | Scroll
  | AnimationFrame (page : Page)
  | Timeout (page : Page).

Definition dispatch (ev : Event) (st : State) : State :=
  match ev with
  | Scroll => scroll st
  | AnimationFrame page =>
      match requested st with
      | _ :: rest =>
          updatePath page
            (mkState (pathLength st) (isInAboutSection st) (rafId st)
                     (lastOffset st) (strokeDashoffset st) rest (issued st))
      | [] => st
      end
  | Timeout page => updatePath page st
  end.

Definition run (evs : list Event) (st : State) : State :=
  fold_left (fun s ev => dispatch ev s) evs st.

End Squiggle.

(** ** The highlight that follows the pointer, [a-img/script.js]

    The pointer and the rectangle are binary64 numbers, compared as the
    listener compares them. *)

Module Hover.

(** [el.getBoundingClientRect()]. *)
Record Rect : Type := mkRect {
  left : float;
  top : float;
  right : float;
  bottom : float;
  width : float;
  height : float
}.

(** The closure of one element's [mousemove] listener, the inline
    opacity of the element, and the fade timers set and not fired yet. *)
Record State : Type := mkState {
  isHovering : bool;
  fadeTimeout : option nat;
  opacity : option Q;
  timers : list nat;
  issued : nat
}.

(** The calls of the two [gsap.quickTo] setters. *)
Inductive Effect : Type :=
  | XTo (value : float)
  | YTo (value : float).

(** The four comparisons, on the rounded sums and differences. *)
Definition isOver (clientX clientY : float) (rect : Rect) : bool :=
  (left rect - 50 <=? clientX)%float
  && (clientX <=? right rect + 50)%float
  && (top rect - 50 <=? clientY)%float
  && (clientY <=? bottom rect + 50)%float.

(** The pending timers without [handle]. *)
Definition without (handle : nat) (timers : list nat) : list nat :=
  filter (fun h => negb (Nat.eqb handle h)) timers.

Definition clearTimeout (handle : option nat) (timers : list nat) : list nat :=
  match handle with
  | Some h => without h timers
  | None => timers
  end.

Definition mousemove (clientX clientY : float) (rect : Rect) (st : State)
    : State * list Effect :=
  if isOver clientX clientY rect then
    let st :=
      if negb (isHovering st)
      then mkState true (fadeTimeout st) (Some 1%Q)
                   (clearTimeout (fadeTimeout st) (timers st)) (issued st)
      else st in
    let relX := ((clientX - left rect) / width rect * 100)%float in
    let relY := ((clientY - top rect) / height rect * 100)%float in
    (st, [XTo relX; YTo relY])
  else if isHovering st then
    let handle := S (issued st) in
    (mkState false (Some handle) (opacity st) (timers st ++ [handle]) handle, [])
  else (st, []).

(** The callback of the fade timer [handle], if it is still pending. *)
Definition fade (handle : nat) (st : State) : State :=
  if existsb (Nat.eqb handle) (timers st)
  then mkState (isHovering st) (fadeTimeout st) (Some 0%Q)
               (without handle (timers st)) (issued st)
  else st.

Definition initial : State := mkState false None None [] 0.

Inductive Event : Type :=
  | MouseMove (clientX clientY : float) (rect : Rect)
  | TimerFired (handle : nat).

Definition dispatch (ev : Event) (st : State) : State :=
  match ev with
  | MouseMove x y rect => fst (mousemove x y rect st)
  | TimerFired handle => fade handle st
  end.

Definition run (evs : list Event) (st : State) : State :=
  fold_left (fun s ev => dispatch ev s) evs st.

(** At most one fade is pending, it is the one [fadeTimeout] names, and
    none is pending while the pointer is over the element. *)
Definition settled (st : State) : Prop :=
  (isHovering st = true -> timers st = [] /\ opacity st = Some 1%Q)
  /\ (timers st = [] \/ exists h, fadeTimeout st = Some h /\ timers st = [h]).

End Hover.

(** ** The numbers as the engine computes them *)

Module Binary64.

(** *** The wheel listener *)

(** An element on the way up, with its [scrollTop] as the binary64 number
    the listener reads. *)
Record Element : Type := mkElement {
  overflowY : string;
  scrollTop : float;
  clientHeight : Z;
  scrollHeight : Z
}.

Record WheelEvent : Type := mkWheel {
  deltaY : float;
  path : list Element
}.

Definition scrollDirection (e : WheelEvent) : Z :=
  if (0 <? deltaY e)%float then 1 else -1.

(** [scrollTop + clientHeight < scrollHeight - 1]: the sum is rounded;
    the two heights are integers, and so is [scrollHeight - 1]. *)
Definition canScrollDown (el : Element) : bool :=
  (scrollTop el + Number.ofZ (clientHeight el)
   <? Number.ofZ (scrollHeight el) - 1)%float.

Definition canScrollUp (el : Element) : bool :=
  (0 <? scrollTop el)%float.

Fixpoint allowNativeScroll (direction : Z) (elements : list Element) : bool :=
  match elements with
  | [] => false
  | currentElement :: parents =>
      let isScrollable :=
        (overflowY currentElement =? "auto")%string
        || (overflowY currentElement =? "scroll")%string in
      if isScrollable then
        if (0 <? direction) && canScrollDown currentElement then true
        else if (direction <? 0) && canScrollUp currentElement then true
        else allowNativeScroll direction parents
      else allowNativeScroll direction parents
  end.

Definition wheelExit (e : WheelEvent) (st : State) : WheelExit :=
  if isScrolling st then Locked
  else if allowNativeScroll (scrollDirection e) (path e) then Delegated
  else Navigate (currentSlideIndex st + scrollDirection e).

Definition wheelListener (e : WheelEvent) (t0 t1 : Z) (st : State)
    : State * list Effect :=
  match wheelExit e st with
  | Locked => (st, [PreventDefault])
  | Delegated => (st, [])
  | Navigate nextSlideIndex =>
      let (st', fx) := navigateToSlide nextSlideIndex t0 t1 st in
      (st', PreventDefault :: fx)
  end.

(** The words of the properties, with room as the listener computes
    it. *)
Definition scrollableY (el : Element) : Prop :=
  overflowY el = "auto"%string \/ overflowY el = "scroll"%string.

Definition hasRoom (direction : Z) (el : Element) : Prop :=
  (0 < direction /\ canScrollDown el = true)
  \/ (direction < 0 /\ canScrollUp el = true).

Definition delegates (direction : Z) (elements : list Element) : Prop :=
  Exists (fun el => scrollableY el /\ hasRoom direction el) elements.

(** *** The manual animation *)

(** [easingOutQuint], each operation rounded. *)
Definition easingOutQuint (x t b c d : float) : float :=
  let t := (t / d - 1)%float in
  (c * (t * t * t * t * t + 1) + b)%float.

(** The closure of one [smoothScrollPolyfill] call, its numbers in
    binary64. *)
Record Closure : Type := mkClosure {
  startTime : Z;
  offset : float;
  gap : float;
  target : float;
  onComplete : option Callback;
  interrupt : bool;
  wheelCancel : bool;
  touchstartCancel : bool
}.

(** What [step] does besides updating the closure: the assignment to
    [node[key]], the call of [onComplete], the request of the next frame. *)
Inductive Effect : Type :=
  | SetScrollTop (v : float)
  | Invoke (cb : Callback)
  | RequestAnimationFrame.

Definition cleanup (a : Closure) : Closure :=
  mkClosure (startTime a) (offset a) (gap a) (target a) (onComplete a)
            (interrupt a) false false.

Definition cancel (a : Closure) : Closure :=
  cleanup (mkClosure (startTime a) (offset a) (gap a) (target a) (onComplete a)
                     true (wheelCancel a) (touchstartCancel a)).

(** [percentage > 1] on the rounded quotient. *)
Definition percentageOver (elapsed : Z) : bool :=
  (1 <? Number.ofZ elapsed / Number.ofZ SCROLL_DURATION)%float.

(** [p] holds of the [n] integers from [lo] on. *)
Fixpoint forallFrom (p : Z -> bool) (lo : Z) (n : nat) : bool :=
  match n with
  | O => true
  | S k => p lo && forallFrom p (lo + 1) k
  end.

(** [step].  [elapsed] and the duration are integers, and their quotient
    exceeds 1 after rounding exactly when it does before
    ([percentageOver_exact] computes it from one minute before the start to
    ten minutes after), so the test on [percentage] is the one of the exact
    controller; the eased value is the rounded one. *)
Definition step (now : Z) (a : Closure) : Closure * list Effect :=
  let elapsed := now - startTime a in
  let percentage := (inject_Z elapsed / inject_Z SCROLL_DURATION)%Q in
  if interrupt a then (a, [])
  else if Number.ltb 1 percentage then
    (cleanup a,
     SetScrollTop (target a)
       :: match onComplete a with
          | Some cb => [Invoke cb]
          | None => []
          end)
  else
    (a, [SetScrollTop (easingOutQuint 0 (Number.ofZ elapsed) (offset a) (gap a)
                                      (Number.ofZ SCROLL_DURATION));
         RequestAnimationFrame]).

(** [smoothScrollPolyfill], given what [node[key]] reads. *)
Definition smoothScrollPolyfill (scrollTop target : float)
    (onComplete : option Callback) (t0 t1 : Z) : Closure * list Effect :=
  let offset := scrollTop in
  let gap := (target - offset)%float in
  step t1 (mkClosure t0 offset gap target onComplete false true true).

End Binary64.

(** ** The dash offset as the engine computes it, [a-img/script.js] *)

Module Squiggle64.

(** [Math.max] and [Math.min] of two numbers: NaN if either is, and the
    positive zero above the negative one. *)
Definition max (x y : float) : float :=
  if is_nan x || is_nan y then nan
  else if (x <? y)%float then y
  else if (y <? x)%float then x
  else if get_sign x then y else x.

Definition min (x y : float) : float :=
  if is_nan x || is_nan y then nan
  else if (x <? y)%float then x
  else if (y <? x)%float then y
  else if get_sign x then x else y.

Record Page : Type := mkPage {
  sectionScrollTop : float;
  sectionScrollHeight : Z;
  sectionClientHeight : Z;
  scrollY : float;
  bodyScrollHeight : Z;
  innerHeight : Z
}.

(** The variables [updatePath] reads and assigns. *)
Record State : Type := mkState {
  pathLength : float;
  isInAboutSection : bool;
  rafId : option nat;
  lastOffset : float;
  strokeDashoffset : float
}.

Definition distance (st : State) (page : Page) : float :=
  if isInAboutSection st then sectionScrollTop page else scrollY page.

Definition totalDistance (st : State) (page : Page) : float :=
  if isInAboutSection st
  then Number.ofZ (sectionScrollHeight page - sectionClientHeight page)
  else Number.ofZ (bodyScrollHeight page - innerHeight page).

Definition percentage (distance totalDistance : float) : float :=
  if (0 <? totalDistance)%float
  then min 1 (max 0 (distance / totalDistance))
  else 0%float.

Definition offset (st : State) (page : Page) : float :=
  (pathLength st * (1 - percentage (distance st page) (totalDistance st page)))%float.

Definition updatePath (page : Page) (st : State) : State :=
  let offset := offset st page in
  if (0.5 <? abs (offset - lastOffset st))%float
  then mkState (pathLength st) (isInAboutSection st) None offset offset
  else mkState (pathLength st) (isInAboutSection st) None (lastOffset st)
               (strokeDashoffset st).

End Squiggle64.

(** * Properties *)

(** ** [getCount] *)

Module DomFacts.
Import Dom.

Lemma countLoop_filter (nodes : list Node) (acc : Z) :
  countLoop nodes acc
  = acc + Z.of_nat (List.length (filter (fun c => negb (nodeType c =? TEXT_NODE)) nodes)).
Proof.
  revert acc; induction nodes as [|child rest IH]; intro acc.
  - simpl. lia.
  - cbn [countLoop filter]. unfold TEXT_NODE in *.
    destruct (negb (nodeType child =? 3)).
    + rewrite IH. cbn [List.length]. lia.
    + apply IH.
Qed.

Lemma getCount_false_loop (parent : Node) :
  getCount parent false = countLoop (childNodes parent) 0.
Proof.
  destruct parent as [t nodes]. cbn [getCount childNodes].
  generalize 0. induction nodes as [|child rest IH]; intro acc.
  - reflexivity.
  - cbn [countLoop]. destruct (negb (nodeType child =? 3)); apply IH.
Qed.

(** What [getCount(parent, false)] returns: the number of children that
    are not text nodes. *)
Lemma getCount_nonText (parent : Node) :
  getCount parent false = Z.of_nat (List.length (nonTextChildren parent)).
Proof.
  rewrite getCount_false_loop, countLoop_filter. reflexivity.
Qed.

(** Where every child is an element or a text node, the count is the
    number of element children. *)
Lemma getCount_elements (parent : Node) :
  Forall (fun c => nodeType c = ELEMENT_NODE \/ nodeType c = TEXT_NODE)
         (childNodes parent) ->
  getCount parent false = Z.of_nat (List.length (elementChildren parent)).
Proof.
  intro H. rewrite getCount_nonText.
  unfold nonTextChildren, elementChildren.
  induction H as [|c l Hc _ IH]; [reflexivity|].
  cbn [filter]. unfold ELEMENT_NODE, TEXT_NODE in *.
  destruct Hc as [Hc|Hc]; rewrite Hc; cbn [Z.eqb Pos.eqb negb List.length];
    [rewrite !Nat2Z.inj_succ; now rewrite IH | exact IH].
Qed.

(** C3.  [slideCount] is [getCount(scroller, false)], and the claim is
    that it equals the number of direct element children of the scroll
    container.  The loop skips text nodes only: on a container holding two
    slides with a comment node between them it returns 3, while the
    container has 2 element children. *)
Theorem getCount_counts_comment_nodes :
  let scroller := element [element []; text; comment; text; element []] in
  getCount scroller false = 3
  /\ Z.of_nat (List.length (elementChildren scroller)) = 2.
Proof. split; reflexivity. Qed.

End DomFacts.

(** ** Numbers *)

Lemma ltb_lt (x y : Q) : Number.ltb x y = true <-> (x < y)%Q.
Proof.
  unfold Number.ltb. rewrite negb_true_iff, <- not_true_iff_false, Qle_bool_iff.
  split; [apply Qnot_le_lt | apply Qlt_not_le].
Qed.

Lemma ltb_ge (x y : Q) : Number.ltb x y = false <-> (y <= x)%Q.
Proof.
  unfold Number.ltb. rewrite negb_false_iff. apply Qle_bool_iff.
Qed.

(** In exact arithmetic the product under [Math.floor] floors to the
    integer quotient. *)
Lemma exact_floor (scrollHeight index count : Z) :
  0 < count ->
  Qfloor (inject_Z scrollHeight * (inject_Z index / inject_Z count))
  = scrollHeight * index / count.
Proof.
  intro Hc. rewrite Zdiv_Qdiv. apply Qfloor_comp.
  rewrite inject_Z_mult. field.
  intro H. unfold Qeq in H. simpl in H. lia.
Qed.

(** C6.  The claim is that the target offset equals
    [floor(scrollHeight * index / slideCount)] in exact arithmetic.  The
    program divides first and multiplies after, in binary64: with ten
    slides of 1080 pixels, [7 / 10] rounds below 0.7, the product rounds to
    the float just below 7560, and the animation is sent to 7559. *)
Theorem targetScrollTop_rounds_below :
  targetScrollTop 10800 7 10 = 7559
  /\ 10800 * 7 / 10 = 7560
  /\ snd (navigateToSlide 7 0 0 (page true 10)) = [ScrollToSmooth (inject_Z 7559)].
Proof. repeat split; vm_compute; reflexivity. Qed.

(** ** What the animation leaves alone *)

Ltac step_cases :=
  unfold step;
  repeat match goal with
         | |- context [if ?b then _ else _] => destruct b
         | |- context [match onComplete ?a with _ => _ end] =>
             destruct (onComplete a) as [[]|]
         end.

Lemma step_frame now a st :
  let st' := fst (step now a st) in
  hasNativeSmoothScroll st' = hasNativeSmoothScroll st
  /\ slideCount st' = slideCount st
  /\ currentSlideIndex st' = currentSlideIndex st
  /\ indicators st' = indicators st
  /\ timeouts st' = timeouts st.
Proof. step_cases; cbn; repeat split; reflexivity. Qed.

Lemma smoothScroll_frame top cb t0 t1 st :
  let st' := fst (smoothScroll top cb t0 t1 st) in
  slideCount st' = slideCount st
  /\ currentSlideIndex st' = currentSlideIndex st
  /\ indicators st' = indicators st
  /\ hasNativeSmoothScroll st' = hasNativeSmoothScroll st.
Proof.
  unfold smoothScroll, smoothScrollPolyfill.
  destruct (hasNativeSmoothScroll st) eqn:Hn.
  - destruct cb; cbn; repeat split; auto.
  - match goal with
    | |- context [step ?n ?a ?s] => pose proof (step_frame n a s) as H
    end.
    cbn in H |- *. destruct H as (H1 & H2 & H3 & H4 & _).
    rewrite H1, H2, H3, H4. repeat split; auto.
Qed.

(** The guard of [navigateToSlide], as a proposition. *)
Lemma navigateToSlide_guard index st :
  isScrolling st || (index <? 0) || (index >=? slideCount st) = true
  <-> isScrolling st = true \/ index < 0 \/ index >= slideCount st.
Proof.
  rewrite !orb_true_iff, Z.ltb_lt, Z.geb_le. intuition lia.
Qed.

Lemma navigateToSlide_accepted index t0 t1 st :
  isScrolling st = false -> 0 <= index < slideCount st ->
  navigateToSlide index t0 t1 st
  = smoothScroll
      (inject_Z (targetScrollTop (scrollHeight (scroller st)) index (slideCount st)))
      (Some ReleaseLock) t0 t1
      (set_indicators (setAriaPressed index (indicators st))
         (set_currentSlideIndex index (set_isScrolling true st))).
Proof.
  intros Hs Hi. unfold navigateToSlide.
  destruct (isScrolling st || (index <? 0) || (index >=? slideCount st)) eqn:G.
  - apply navigateToSlide_guard in G. destruct G as [G|G]; [congruence|lia].
  - reflexivity.
Qed.

(** The guard of [navigateToSlide] returns before anything is assigned. *)
Lemma navigateToSlide_guarded (index t0 t1 : Z) (st : State) :
  isScrolling st = true \/ index < 0 \/ index >= slideCount st ->
  navigateToSlide index t0 t1 st = (st, []).
Proof.
  intro H. apply navigateToSlide_guard in H.
  unfold navigateToSlide. now rewrite H.
Qed.

(** ** C2: rejected navigation *)

(** C2.  Called while the lock is held, or with an index below 0 or not
    below [slideCount], [navigateToSlide] returns the state it was given
    (index, lock, indicators and all the rest) and does nothing: no scroll
    starts, and the function has no failing path. *)
Theorem navigateToSlide_rejected (index t0 t1 : Z) (st : State) :
  isScrolling st = true \/ index < 0 \/ index >= slideCount st ->
  navigateToSlide index t0 t1 st = (st, []).
Proof.
  intro H. apply navigateToSlide_guard in H.
  unfold navigateToSlide. now rewrite H.
Qed.

Lemma navigateToSlide_rejected_witness :
  (isScrolling (page false 3) = true \/ 5 < 0 \/ 5 >= slideCount (page false 3))
  /\ navigateToSlide 5 0 0 (page false 3) = (page false 3, []).
Proof.
  assert (H : isScrolling (page false 3) = true \/ 5 < 0
              \/ 5 >= slideCount (page false 3))
    by (right; right; vm_compute; discriminate).
  split; [exact H | exact (navigateToSlide_rejected 5 0 0 (page false 3) H)].
Defined.

(** ** C7: the indicators after a navigation *)

Lemma forEach_length {A} (f : A -> nat -> A) l i :
  List.length (forEach f l i) = List.length l.
Proof.
  revert i; induction l as [|x l IH]; intro i; cbn; [reflexivity|now rewrite IH].
Qed.

Lemma forEach_nth_error {A} (f : A -> nat -> A) l i k :
  nth_error (forEach f l i) k
  = option_map (fun x => f x (i + k)%nat) (nth_error l k).
Proof.
  revert i k; induction l as [|x l IH]; intros i k.
  - destruct k; reflexivity.
  - destruct k as [|k]; cbn.
    + now rewrite Nat.add_0_r.
    + rewrite IH. now rewrite Nat.add_succ_r.
Qed.

Lemma pressed_booleanString label b :
  pressed (mkIndicator label (Some (booleanString b))) = b.
Proof. destruct b; reflexivity. Qed.

Lemma setAriaPressed_nth_error activeIndex l k indicator :
  nth_error (setAriaPressed activeIndex l) k = Some indicator ->
  pressed indicator = (Z.of_nat k =? activeIndex).
Proof.
  unfold setAriaPressed. rewrite forEach_nth_error.
  destruct (nth_error l k); [|discriminate].
  cbn. intro H. injection H as <-. apply pressed_booleanString.
Qed.






(** ** The curve and the duration *)

Lemma easingOutQuint_quintic (x t b c d : Q) :
  (easingOutQuint x t b c d == c * ((t / d - 1) ^ 5 + 1) + b)%Q.
Proof.
  unfold easingOutQuint. cbv zeta.
  change ((t / d - 1) ^ 5)%Q with (Qpower_positive (t / d - 1) 5).
  cbn [Qpower_positive pow_pos Pos.iter_op]. ring.
Qed.

(** [percentage > 1] says that more than the duration has elapsed. *)
Lemma percentage_over (elapsed : Z) :
  Number.ltb 1 (inject_Z elapsed / inject_Z SCROLL_DURATION)
  = (SCROLL_DURATION <? elapsed).
Proof.
  destruct (Z.ltb_spec SCROLL_DURATION elapsed) as [H|H].
  - apply ltb_lt. unfold Qlt, SCROLL_DURATION in *. cbn. lia.
  - apply ltb_ge. unfold Qle, SCROLL_DURATION in *. cbn. lia.
Qed.

(** ** The invariant of the reachable states *)

Lemma cancelAnimation_coherent st : coherent st -> coherent (cancelAnimation st).
Proof.
  intros Hc. unfold cancelAnimation.
  destruct (animation st) as [a|] eqn:E; [|exact Hc].
  destruct Hc as [H1 H2 H3 H4 H5 H6].
  constructor; cbn; try assumption.
  - intro Hs. destruct (H3 Hs) as [Hin Ht]. rewrite E in Hin. cbn in Hin.
    split; [|exact Ht]. cbn. tauto.
  - intro Hn. rewrite (H6 Hn) in E. discriminate.
Qed.

Lemma step_coherent now a st :
  coherent st -> animation st = Some a -> frameRequested a = false ->
  isScrolling st = true ->
  coherent (fst (step now a st)).
Proof.
  intros [H1 H2 H3 H4 H5 H6] Ea Hf Hs.
  assert (Hn : hasNativeSmoothScroll st = false).
  { destruct (hasNativeSmoothScroll st); [|reflexivity].
    rewrite H6 in Ea by reflexivity. discriminate. }
  pose proof (H4 Hn) as Ht.
  step_cases; cbn; constructor; cbn; try assumption;
    try (intros; congruence);
    try (intros; split; [cbn; auto | assumption]).
Qed.

Lemma set_scroller_coherent box st : coherent st -> coherent (set_scroller box st).
Proof. intros [H1 H2 H3 H4 H5 H6]. constructor; assumption. Qed.

Lemma navigateToSlide_coherent index t0 t1 st :
  coherent st -> coherent (fst (navigateToSlide index t0 t1 st)).
Proof.
  intros Hc.
  destruct (isScrolling st || (index <? 0) || (index >=? slideCount st)) eqn:G.
  - apply navigateToSlide_guard in G.
    rewrite navigateToSlide_guarded by exact G. exact Hc.
  - assert (Hs : isScrolling st = false /\ 0 <= index < slideCount st).
    { destruct (isScrolling st) eqn:Hs; [discriminate|].
      cbn in G. apply orb_false_iff in G. destruct G as [G1 G2].
      apply Z.ltb_ge in G1. rewrite Z.geb_leb in G2. apply Z.leb_gt in G2.
      split; [reflexivity | lia]. }
    destruct Hs as [Hs Hi].
    rewrite navigateToSlide_accepted by assumption.
    destruct Hc as [H1 H2 H3 H4 H5 H6].
    destruct (H3 Hs) as [Hin Ht].
    unfold smoothScroll. cbn [set_indicators set_currentSlideIndex set_isScrolling
                               hasNativeSmoothScroll timeouts].
    destruct (hasNativeSmoothScroll st) eqn:Hn.
    + cbn. constructor; cbn; try assumption; try lia; try (intros; congruence).
      * rewrite Ht. cbn. lia.
      * intros _. apply H6. reflexivity.
    + unfold smoothScrollPolyfill.
      apply step_coherent; try reflexivity.
      constructor; cbn; try assumption; try lia; try (intros; congruence).
Qed.

Lemma dispatch_coherent ev st : coherent st -> coherent (fst (dispatch ev st)).
Proof.
  intro Hc. destruct ev as [i t0 t1|e t0 t1| |now| |box]; cbn [dispatch].
  - destruct (i <? List.length (indicators st))%nat; [|exact Hc].
    unfold clickListener.
    pose proof (navigateToSlide_coherent (Z.of_nat i) t0 t1 st Hc) as H.
    destruct (navigateToSlide (Z.of_nat i) t0 t1 st). exact H.
  - assert (Hc' : coherent (if wheelCancelRegistered st then cancelAnimation st else st))
      by (destruct (wheelCancelRegistered st); [apply cancelAnimation_coherent|]; exact Hc).
    revert Hc'. generalize (if wheelCancelRegistered st then cancelAnimation st else st).
    intros s Hs. unfold wheelListener.
    destruct (wheelExit e s); try exact Hs.
    pose proof (navigateToSlide_coherent nextSlideIndex t0 t1 s Hs) as H.
    destruct (navigateToSlide nextSlideIndex t0 t1 s). exact H.
  - cbn. destruct (touchstartCancelRegistered st); [apply cancelAnimation_coherent|]; exact Hc.
  - destruct (animation st) as [a|] eqn:Ea; [|exact Hc].
    destruct (frameRequested a) eqn:Hf; [|exact Hc].
    assert (Hs : isScrolling st = true).
    { destruct (isScrolling st) eqn:Hs; [reflexivity|].
      destruct (free_inert st Hc Hs) as [Hin _]. rewrite Ea in Hin.
      cbn in Hin. destruct Hin as (_ & _ & Hin). congruence. }
    apply step_coherent; try reflexivity; try exact Hs.
    destruct Hc as [H1 H2 H3 H4 H5 H6].
    constructor; cbn; try assumption; try (intros; congruence).
    intro Hn. rewrite (H6 Hn) in Ea. discriminate.
  - destruct (timeouts st) as [|cb rest] eqn:Et; [exact Hc|].
    destruct Hc as [H1 H2 H3 H4 H5 H6]. rewrite Et in *.
    assert (Hr : rest = []) by (destruct rest; [reflexivity | cbn in H5; lia]).
    assert (Hn : hasNativeSmoothScroll st = true).
    { destruct (hasNativeSmoothScroll st); [reflexivity|].
      specialize (H4 eq_refl). discriminate. }
    subst rest. destruct cb. cbn.
    constructor; cbn; try assumption; try (intros; congruence); try lia.
    intros _. rewrite (H6 Hn). cbn. auto.
  - cbn. apply set_scroller_coherent, Hc.
Qed.

Lemma reachable_coherent st : reachable st -> coherent st.
Proof.
  induction 1 as [native tree box inds st H|ev st _ IH].
  - cbn in H. injection H as <-. constructor; cbn; auto; try lia.
  - apply dispatch_coherent, IH.
Qed.

(** ** Runs *)

Lemma run_app evs1 evs2 st :
  run (evs1 ++ evs2) st
  = let (st1, fx1) := run evs1 st in
    let (st2, fx2) := run evs2 st1 in
    (st2, fx1 ++ fx2).
Proof.
  revert st; induction evs1 as [|ev evs1 IH]; intro st; cbn [run app].
  - destruct (run evs2 st); reflexivity.
  - destruct (dispatch ev st) as [s1 f1]. rewrite IH.
    destruct (run evs1 s1) as [s2 f2]. destruct (run evs2 s2) as [s3 f3].
    now rewrite app_assoc.
Qed.

Lemma reachable_run evs st : reachable st -> reachable (fst (run evs st)).
Proof.
  revert st; induction evs as [|ev evs IH]; intros st H; cbn [run].
  - exact H.
  - pose proof (reachable_dispatch ev st H) as H1.
    destruct (dispatch ev st) as [s1 f1]. cbn [fst] in H1.
    specialize (IH s1 H1). destruct (run evs s1). exact IH.
Qed.

Lemma reachable_page native n : reachable (page native n).
Proof.
  apply (reachable_loaded native (slides n)
           (mkElement "hidden" 0 1080 (1080 * Z.of_nat n))
           (repeat (mkIndicator None None) n)).
  reflexivity.
Qed.

(** ** The wheel listener *)

Lemma scrollDirection_down e : (0 < deltaY e)%Q -> scrollDirection e = 1.
Proof. intro H. unfold scrollDirection. apply ltb_lt in H. now rewrite H. Qed.

Lemma scrollDirection_up e : (deltaY e <= 0)%Q -> scrollDirection e = -1.
Proof. intro H. unfold scrollDirection. apply ltb_ge in H. now rewrite H. Qed.

Lemma allowNativeScroll_cons direction el rest :
  allowNativeScroll direction (el :: rest)
  = ((overflowY el =? "auto")%string || (overflowY el =? "scroll")%string)
    && (((0 <? direction)
         && Number.ltb (scrollTop el + inject_Z (clientHeight el))
                       (inject_Z (scrollHeight el) - 1))
        || ((direction <? 0) && Number.ltb 0 (scrollTop el)))
    || allowNativeScroll direction rest.
Proof.
  cbn [allowNativeScroll].
  destruct ((overflowY el =? "auto")%string || (overflowY el =? "scroll")%string);
    [|reflexivity].
  destruct ((0 <? direction)
            && Number.ltb (scrollTop el + inject_Z (clientHeight el))
                          (inject_Z (scrollHeight el) - 1)); [reflexivity|].
  destruct ((direction <? 0) && Number.ltb 0 (scrollTop el)); reflexivity.
Qed.

(** The loop returns early exactly when some visited element scrolls on
    its own and has room in the direction of the wheel. *)
Lemma allowNativeScroll_delegates direction elements :
  allowNativeScroll direction elements = true <-> delegates direction elements.
Proof.
  unfold delegates. induction elements as [|el rest IH].
  - cbn. split; [discriminate | intro H; inversion H].
  - rewrite Exists_cons, <- IH, allowNativeScroll_cons.
    unfold scrollableY, hasRoom.
    rewrite !orb_true_iff, !andb_true_iff, !orb_true_iff, !andb_true_iff,
      !String.eqb_eq, !Z.ltb_lt, !ltb_lt.
    reflexivity.
Qed.

Lemma allowNativeScroll_not_delegates direction elements :
  ~ delegates direction elements -> allowNativeScroll direction elements = false.
Proof.
  intro H. apply not_true_is_false. now rewrite allowNativeScroll_delegates.
Qed.

(** ** C4, C10: the wheel listener decides *)

Lemma navigateToSlide_index index t0 t1 st :
  currentSlideIndex (fst (navigateToSlide index t0 t1 st))
  = if isScrolling st || (index <? 0) || (index >=? slideCount st)
    then currentSlideIndex st else index.
Proof.
  destruct (isScrolling st || (index <? 0) || (index >=? slideCount st)) eqn:G.
  - apply navigateToSlide_guard in G.
    now rewrite navigateToSlide_guarded.
  - unfold navigateToSlide. rewrite G.
    match goal with
    | |- context [smoothScroll ?top ?cb t0 t1 ?s] =>
        destruct (smoothScroll_frame top cb t0 t1 s) as (_ & Hc & _)
    end.
    rewrite Hc. reflexivity.
Qed.

Lemma dispatch_wheel_free e t0 t1 st :
  coherent st -> isScrolling st = false ->
  dispatch (Wheel e t0 t1) st = wheelListener e t0 t1 st.
Proof.
  intros Hc Hs. cbn [dispatch]. unfold wheelCancelRegistered.
  destruct (free_inert st Hc Hs) as [Hin _].
  destruct (animation st) as [a|]; [|reflexivity].
  destruct Hin as (-> & _). reflexivity.
Qed.

(** The wheel listener was registered first and runs before [cancel]; in
    a coherent state the result is the one [dispatch] computes. *)
Lemma dispatch_wheel_order e t0 t1 st :
  coherent st ->
  dispatch (Wheel e t0 t1) st
  = (if wheelCancelRegistered st
     then cancelAnimation (fst (wheelListener e t0 t1 st))
     else fst (wheelListener e t0 t1 st),
     snd (wheelListener e t0 t1 st)).
Proof.
  intro Hc. cbn [dispatch].
  destruct (wheelCancelRegistered st) eqn:Hw;
    [|now destruct (wheelListener e t0 t1 st)].
  assert (Hs : isScrolling st = true).
  { destruct (isScrolling st) eqn:Hs; [reflexivity|].
    destruct (free_inert st Hc Hs) as [Hin _].
    unfold wheelCancelRegistered in Hw.
    destruct (animation st); [|discriminate].
    destruct Hin as (Hin & _). congruence. }
  assert (Hs' : isScrolling (cancelAnimation st) = true)
    by (unfold cancelAnimation; destruct (animation st); exact Hs).
  unfold wheelListener, wheelExit. rewrite Hs, Hs'. reflexivity.
Qed.

Lemma wheelListener_navigates e t0 t1 st :
  isScrolling st = false ->
  ~ delegates (scrollDirection e) (path e) ->
  wheelExit e st = Navigate (currentSlideIndex st + scrollDirection e)
  /\ wheelListener e t0 t1 st
     = (fst (navigateToSlide (currentSlideIndex st + scrollDirection e) t0 t1 st),
        PreventDefault
          :: snd (navigateToSlide (currentSlideIndex st + scrollDirection e) t0 t1 st)).
Proof.
  intros Hs Hd. apply allowNativeScroll_not_delegates in Hd.
  assert (E : wheelExit e st = Navigate (currentSlideIndex st + scrollDirection e))
    by (unfold wheelExit; now rewrite Hs, Hd).
  split; [exact E|]. unfold wheelListener. rewrite E.
  destruct (navigateToSlide _ t0 t1 st). reflexivity.
Qed.

(** C4.  A wheel event that arrives in a reachable state while the lock is
    free and finds no element with room on the way from its target up to
    the scroller: the default is prevented and the rest is
    [navigateToSlide(currentSlideIndex + direction)].  For a positive delta
    the index grows by one unless the current slide is the last, for a
    negative delta it shrinks by one unless the current slide is the first;
    at these bounds it stays. *)
Theorem wheel_navigates (e : WheelEvent) (t0 t1 : Z) (st : State) :
  reachable st ->
  isScrolling st = false ->
  ~ delegates (scrollDirection e) (path e) ->
  let current := currentSlideIndex st in
  let target := current + scrollDirection e in
  let st' := fst (dispatch (Wheel e t0 t1) st) in
  dispatch (Wheel e t0 t1) st
  = (fst (navigateToSlide target t0 t1 st),
     PreventDefault :: snd (navigateToSlide target t0 t1 st))
  /\ ((0 < deltaY e)%Q ->
      currentSlideIndex st'
      = if current + 1 <? slideCount st then current + 1 else current)
  /\ ((deltaY e < 0)%Q ->
      currentSlideIndex st' = if 0 <? current then current - 1 else current).
Proof.
  intros Hr Hs Hd current tgt st'. subst st'.
  pose proof (reachable_coherent st Hr) as Hc.
  rewrite dispatch_wheel_free by assumption.
  destruct (wheelListener_navigates e t0 t1 st Hs Hd) as [_ L].
  fold current in L. fold tgt in L. rewrite L. cbn [fst].
  split; [reflexivity|].
  destruct Hc as [H1 H2 _ _ _ _]. fold current in H1, H2.
  rewrite navigateToSlide_index, Hs. cbn [orb]. subst tgt.
  split; intro Hdelta.
  - rewrite scrollDirection_down by assumption.
    destruct (Z.ltb_spec (current + 1) (slideCount st)),
      (Z.ltb_spec (current + 1) 0), (Z.geb_spec (current + 1) (slideCount st));
      cbn [orb]; try reflexivity; lia.
  - rewrite scrollDirection_up by (apply Qlt_le_weak; assumption).
    destruct (Z.ltb_spec 0 current),
      (Z.ltb_spec (current + -1) 0), (Z.geb_spec (current + -1) (slideCount st));
      cbn [orb]; try reflexivity; lia.
Qed.

(** C10.  A wheel event whose [deltaY] is 0 gets direction -1.  With the
    lock free and no element with room upwards on the way, the listener
    prevents the default and calls [navigateToSlide(currentSlideIndex - 1)],
    which in a reachable state lowers the index by one when it is above
    0. *)
Theorem wheel_zero_delta_goes_up (e : WheelEvent) (t0 t1 : Z) (st : State) :
  reachable st ->
  (deltaY e == 0)%Q ->
  isScrolling st = false ->
  ~ delegates (-1) (path e) ->
  scrollDirection e = -1
  /\ wheelListener e t0 t1 st
     = (fst (navigateToSlide (currentSlideIndex st - 1) t0 t1 st),
        PreventDefault :: snd (navigateToSlide (currentSlideIndex st - 1) t0 t1 st))
  /\ (0 < currentSlideIndex st ->
      currentSlideIndex (fst (wheelListener e t0 t1 st)) = currentSlideIndex st - 1).
Proof.
  intros Hr Hz Hs Hd.
  assert (Hdir : scrollDirection e = -1)
    by (apply scrollDirection_up; rewrite Hz; apply Qle_refl).
  rewrite <- Hdir in Hd.
  destruct (wheelListener_navigates e t0 t1 st Hs Hd) as [_ L].
  rewrite Hdir in L. change (currentSlideIndex st + -1) with (currentSlideIndex st - 1) in L.
  repeat split; try assumption.
  intro Hpos. rewrite L. cbn [fst]. rewrite navigateToSlide_index, Hs. cbn [orb].
  destruct (reachable_coherent st Hr) as [H1 H2 _ _ _ _].
  destruct (Z.ltb_spec (currentSlideIndex st - 1) 0),
    (Z.geb_spec (currentSlideIndex st - 1) (slideCount st));
    cbn [orb]; try reflexivity; lia.
Qed.

(** ** Examples of the wheel properties *)

Lemma not_delegates_by_loop direction elements :
  allowNativeScroll direction elements = false -> ~ delegates direction elements.
Proof.
  intros H D. apply allowNativeScroll_delegates in D. congruence.
Qed.

Lemma wheel_navigates_witness :
  let e := mkWheel 100 [block; panel 700] in
  let st := fst (run [Click 1 0 0; TimeoutFired] (page true 4)) in
  reachable st
  /\ isScrolling st = false
  /\ ~ delegates (scrollDirection e) (path e)
  /\ currentSlideIndex st = 1
  /\ currentSlideIndex (fst (dispatch (Wheel e 0 0) st)) = 2.
Proof.
  intros e st.
  assert (Hr : reachable st) by apply reachable_run, reachable_page.
  assert (Hs : isScrolling st = false) by reflexivity.
  assert (Hd : ~ delegates (scrollDirection e) (path e))
    by (apply not_delegates_by_loop; reflexivity).
  destruct (wheel_navigates e 0 0 st Hr Hs Hd) as (_ & Hdown & _).
  split; [exact Hr|]. split; [exact Hs|]. split; [exact Hd|].
  split; [reflexivity|].
  rewrite Hdown by reflexivity. reflexivity.
Defined.

Lemma wheel_zero_delta_goes_up_witness :
  let e := mkWheel 0 [block] in
  let st := fst (run [Click 1 0 0; TimeoutFired] (page true 4)) in
  reachable st
  /\ (deltaY e == 0)%Q
  /\ isScrolling st = false
  /\ ~ delegates (-1) (path e)
  /\ currentSlideIndex st = 1
  /\ currentSlideIndex (fst (wheelListener e 0 0 st)) = 0.
Proof.
  intros e st.
  assert (Hr : reachable st) by apply reachable_run, reachable_page.
  assert (Hz : (deltaY e == 0)%Q) by reflexivity.
  assert (Hs : isScrolling st = false) by reflexivity.
  assert (Hd : ~ delegates (-1) (path e))
    by (apply not_delegates_by_loop; reflexivity).
  destruct (wheel_zero_delta_goes_up e 0 0 st Hr Hz Hs Hd) as (_ & _ & Hup).
  split; [exact Hr|]. split; [exact Hz|]. split; [exact Hs|].
  split; [exact Hd|]. split; [reflexivity|].
  rewrite Hup by reflexivity. reflexivity.
Defined.

(** ** After a cancellation *)

Lemma stuck_dispatch ev st :
  stuck st ->
  stuck (fst (dispatch ev st)) /\ noWrites (snd (dispatch ev st)).
Proof.
  intros (Hs & Ht & a & Ea & Hi & Hw & Htc).
  assert (Hst : stuck st) by (repeat split; eauto 8).
  destruct ev as [i t0 t1|e t0 t1| |now| |box]; cbn [dispatch].
  - destruct (i <? List.length (indicators st))%nat.
    + unfold clickListener. rewrite navigateToSlide_guarded by auto.
      cbn. split; [exact Hst|]. repeat constructor.
    + split; [exact Hst | constructor].
  - unfold wheelCancelRegistered. rewrite Ea, Hw.
    unfold wheelListener, wheelExit. rewrite Hs.
    cbn. split; [exact Hst|]. repeat constructor.
  - unfold touchstartCancelRegistered. rewrite Ea, Htc.
    cbn. split; [exact Hst | constructor].
  - rewrite Ea. destruct (frameRequested a).
    + unfold step. cbn [set_frameRequested interrupt]. rewrite Hi.
      cbn. split; [|constructor].
      repeat split; try assumption.
      eexists. repeat split; cbn; assumption.
    + split; [exact Hst | constructor].
  - rewrite Ht. split; [exact Hst | constructor].
  - cbn. split; [|constructor].
    repeat split; try assumption. exists a. auto.
Qed.

Lemma stuck_run evs st :
  stuck st ->
  stuck (fst (run evs st)) /\ noWrites (snd (run evs st)).
Proof.
  revert st; induction evs as [|ev evs IH]; intros st Hst; cbn [run].
  - split; [exact Hst | constructor].
  - destruct (stuck_dispatch ev st Hst) as [H1 H2].
    destruct (dispatch ev st) as [s1 f1]. cbn [fst snd] in H1, H2.
    destruct (IH s1 H1) as [H3 H4].
    destruct (run evs s1) as [s2 f2]. cbn [fst snd] in *.
    split; [exact H3 | apply Forall_app; split; assumption].
Qed.

(** An input that reaches [cancel] in a reachable state leaves the page
    stuck. *)
Lemma cancel_sticks ev st a :
  reachable st -> animation st = Some a -> reachesCancel ev a ->
  animation (fst (dispatch ev st)) = Some (cancel a)
  /\ stuck (fst (dispatch ev st))
  /\ noWrites (snd (dispatch ev st)).
Proof.
  intros Hr Ea Hc. pose proof (reachable_coherent st Hr) as Hco.
  assert (Hlive : wheelCancel a = true \/ touchstartCancel a = true)
    by (destruct ev; cbn in Hc; tauto).
  assert (Hs : isScrolling st = true).
  { destruct (isScrolling st) eqn:Hs; [reflexivity|].
    destruct (free_inert st Hco Hs) as [Hin _]. rewrite Ea in Hin.
    cbn in Hin. destruct Hin as (? & ? & _). destruct Hlive; congruence. }
  assert (Ht : timeouts st = []).
  { apply (polyfill_no_timeout st Hco).
    destruct (hasNativeSmoothScroll st) eqn:Hn; [|reflexivity].
    rewrite (native_no_polyfill st Hco Hn) in Ea. discriminate. }
  assert (Hstuck : stuck (cancelAnimation st)).
  { unfold cancelAnimation. rewrite Ea. repeat split; try assumption.
    exists (cancel a). repeat split. }
  destruct ev as [i t0 t1|e t0 t1| |now| |box]; cbn in Hc; try contradiction;
    cbn [dispatch].
  - unfold wheelCancelRegistered. rewrite Ea, Hc.
    unfold wheelListener, wheelExit.
    replace (isScrolling (cancelAnimation st)) with true
      by (unfold cancelAnimation; rewrite Ea; cbn; congruence).
    cbn [fst snd]. split; [unfold cancelAnimation; rewrite Ea; reflexivity|].
    split; [exact Hstuck | repeat constructor].
  - unfold touchstartCancelRegistered. rewrite Ea, Hc. cbn [fst snd].
    split; [unfold cancelAnimation; rewrite Ea; reflexivity|].
    split; [exact Hstuck | constructor].
Qed.

Lemma step_interrupt now a st a' :
  interrupt a = false ->
  (forall a0, animation st = Some a0 -> interrupt a0 = false) ->
  animation (fst (step now a st)) = Some a' -> interrupt a' = false.
Proof.
  intros Hi Hst. unfold step. rewrite Hi.
  destruct (Number.ltb 1 _).
  - destruct (onComplete a) as [[]|]; cbn; intro E; injection E as <-; exact Hi.
  - cbn. intro E; injection E as <-; exact Hi.
Qed.

Lemma navigateToSlide_interrupt index t0 t1 st a' :
  (forall a0, animation st = Some a0 -> interrupt a0 = false) ->
  animation (fst (navigateToSlide index t0 t1 st)) = Some a' -> interrupt a' = false.
Proof.
  intros Hst. unfold navigateToSlide.
  destruct (isScrolling st || (index <? 0) || (index >=? slideCount st)).
  - cbn. apply Hst.
  - unfold smoothScroll. cbn [set_indicators set_currentSlideIndex set_isScrolling
                               hasNativeSmoothScroll].
    destruct (hasNativeSmoothScroll st).
    + cbn. apply Hst.
    + unfold smoothScrollPolyfill. apply step_interrupt; [reflexivity|].
      cbn. intros a0 E. injection E as <-. reflexivity.
Qed.

(** Nothing but a wheel or touch-start event raises [interrupt]. *)
Lemma interrupt_only_by_input ev st a' :
  (forall a, animation st = Some a -> interrupt a = false) ->
  animation (fst (dispatch ev st)) = Some a' ->
  interrupt a' = true ->
  userInput ev.
Proof.
  intros Hst E Hi.
  destruct ev as [i t0 t1|e t0 t1| |now| |box]; cbn [userInput]; try exact I;
    exfalso; cbn [dispatch] in E.
  - destruct (i <? List.length (indicators st))%nat.
    + unfold clickListener in E.
      pose proof (navigateToSlide_interrupt (Z.of_nat i) t0 t1 st a' Hst) as H.
      destruct (navigateToSlide (Z.of_nat i) t0 t1 st). cbn in *.
      specialize (H E). congruence.
    + cbn in E. specialize (Hst _ E). congruence.
  - destruct (animation st) as [a|] eqn:Ea.
    + destruct (frameRequested a) eqn:Hf.
      * apply step_interrupt in E.
        -- congruence.
        -- cbn. apply (Hst a eq_refl).
        -- cbn. intros a0 E0. injection E0 as <-. cbn. apply (Hst a eq_refl).
      * cbn in E. rewrite Ea in E. injection E as <-.
        specialize (Hst a eq_refl). congruence.
    + cbn in E. rewrite Ea in E. discriminate.
  - destruct (timeouts st) as [|[] rest]; cbn in E;
      specialize (Hst _ E); congruence.
  - cbn in E. specialize (Hst _ E). congruence.
Qed.

(** ** C8, C1: cancellation *)

(** C8.  In a reachable state, once a wheel or touch-start event reaches
    the [cancel] listener of the running manual animation, the closure is
    interrupted with both listeners removed, and through every later
    sequence of events (frames included) no handler assigns the scroll
    offset and the listeners stay removed.  And this is the only way: an
    event after which an animation is interrupted, where none was before,
    is a wheel or a touch-start event; no click, frame, timer or layout
    change does it. *)
Theorem cancel_is_final (ev : Event) (st : State) (a : Polyfill) :
  reachable st ->
  animation st = Some a ->
  reachesCancel ev a ->
  let st1 := fst (dispatch ev st) in
  animation st1 = Some (cancel a)
  /\ noWrites (snd (dispatch ev st))
  /\ (forall evs,
         noWrites (snd (run evs st1))
         /\ exists a', animation (fst (run evs st1)) = Some a'
                       /\ interrupt a' = true
                       /\ wheelCancel a' = false
                       /\ touchstartCancel a' = false)
  /\ (forall ev' st0 a0,
         (forall b, animation st0 = Some b -> interrupt b = false) ->
         animation (fst (dispatch ev' st0)) = Some a0 ->
         interrupt a0 = true ->
         userInput ev').
Proof.
  intros Hr Ea Hc st1. subst st1.
  destruct (cancel_sticks ev st a Hr Ea Hc) as (H1 & H2 & H3).
  split; [exact H1|]. split; [exact H3|]. split.
  - intro evs. destruct (stuck_run evs _ H2) as [(_ & _ & Ha) Hw].
    split; [exact Hw | exact Ha].
  - intros ev' st0 a0. apply interrupt_only_by_input.
Qed.

Lemma cancel_is_final_witness :
  let st := fst (run [Click 1 0 0; AnimationFrame 16] (page false 3)) in
  let a := mkPolyfill 0 0 1080 1080 (Some ReleaseLock) false true true true in
  let st1 := fst (dispatch TouchStart st) in
  reachable st
  /\ animation st = Some a
  /\ reachesCancel TouchStart a
  /\ animation st1 = Some (cancel a)
  /\ noWrites (snd (run [AnimationFrame 32; AnimationFrame 900; Click 2 950 950] st1))
  /\ userInput TouchStart.
Proof.
  intros st a st1.
  assert (Hr : reachable st) by apply reachable_run, reachable_page.
  assert (Ea : animation st = Some a) by reflexivity.
  assert (Hc : reachesCancel TouchStart a) by reflexivity.
  destruct (cancel_is_final TouchStart st a Hr Ea Hc) as (H1 & _ & H2 & H3).
  split; [exact Hr|]. split; [exact Ea|]. split; [exact Hc|].
  split; [exact H1|]. split.
  - exact (proj1 (H2 [AnimationFrame 32; AnimationFrame 900; Click 2 950 950])).
  - apply (H3 TouchStart st (cancel a)).
    + intros b Eb. rewrite Ea in Eb. injection Eb as <-. reflexivity.
    + exact H1.
    + reflexivity.
Defined.

(** The native path: the timer releases the lock whatever happened in
    between. *)
Lemma native_timeout_releases_lock st :
  timeouts st <> [] ->
  isScrolling (fst (dispatch TimeoutFired st)) = false.
Proof.
  intro H. cbn [dispatch]. destruct (timeouts st) as [|[] rest]; [congruence|].
  reflexivity.
Qed.

(** Whatever follows a cancellation, the lock stays held. *)
Lemma cancel_holds_lock ev st a evs :
  reachable st -> animation st = Some a -> reachesCancel ev a ->
  isScrolling (fst (run evs (fst (dispatch ev st)))) = true.
Proof.
  intros Hr Ea Hc.
  destruct (cancel_sticks ev st a Hr Ea Hc) as (_ & Hst & _).
  destruct (stuck_run evs _ Hst) as [(Hs & _) _]. exact Hs.
Qed.

(** C1.  The claim is that the lock is released however the animation
    ends, by interruption too.  [cancel] stops the animation without
    running [onComplete]: on a page of two slides without native smooth
    scrolling, after a click on the second indicator, one frame and a wheel
    event, [isScrolling] is [true] and stays [true] through every further
    sequence of events, and every later [navigateToSlide] is rejected. *)
Theorem interrupted_animation_keeps_lock :
  let interrupted :=
    fst (run [Click 1 0 0; AnimationFrame 16; Wheel (mkWheel 100 [block]) 20 20]
             (page false 2)) in
  forall evs : list Event,
    let st := fst (run evs interrupted) in
    isScrolling st = true
    /\ forall index t0 t1, navigateToSlide index t0 t1 st = (st, []).
Proof.
  intros interrupted evs st.
  assert (Hst : stuck interrupted).
  { repeat split. eexists. repeat split. }
  destruct (stuck_run evs interrupted Hst) as [(Hs & _) _].
  fold st in Hs. split; [exact Hs|].
  intros index t0 t1. apply navigateToSlide_guarded. auto.
Qed.

(** * Further properties *)

(** ** [getCount], recursive *)

Module DomTreeFacts.
Import Dom.

Lemma getCount_true_loop (parent : Node) :
  getCount parent true = deepLoop (childNodes parent) 0.
Proof.
  destruct parent as [t nodes]. cbn [getCount childNodes].
  generalize 0. induction nodes as [|child rest IH]; intro acc.
  - reflexivity.
  - cbn [deepLoop]. destruct (negb (nodeType child =? 3)); apply IH.
Qed.

Lemma deepLoop_acc (rest : list Node) (acc : Z) :
  deepLoop rest acc = acc + deepLoop rest 0.
Proof.
  revert acc. induction rest as [|c r IH]; intro acc; cbn [deepLoop].
  - lia.
  - destruct (negb (nodeType c =? 3)); [|apply IH].
    rewrite IH, (IH (0 + _ + 1)). lia.
Qed.

(** Induction on a tree with the hypothesis for every child. *)
Lemma Node_children_ind (P : Node -> Prop) :
  (forall t nodes, Forall P nodes -> P (mkNode t nodes)) -> forall n, P n.
Proof.
  intro H. fix IH 1. intros [t nodes]. apply H.
  induction nodes as [|c r IHr]; constructor; [apply IH | exact IHr].
Qed.

Lemma getCount_nonneg (parent : Node) (b : bool) : 0 <= getCount parent b.
Proof.
  destruct b.
  - induction parent as [t nodes IH] using Node_children_ind.
    rewrite getCount_true_loop. cbn [childNodes].
    induction IH as [|c r Hc _ IHr]; cbn [deepLoop]; [lia|].
    destruct (negb (nodeType c =? 3)); [|exact IHr].
    rewrite deepLoop_acc. lia.
  - rewrite DomFacts.getCount_nonText. lia.
Qed.

(** X1.  [getCount] is never negative; without recursion it is at most the
    number of child nodes, and the recursive count is at least the
    non-recursive one. *)
Theorem getCount_shallow_le_deep (parent : Node) :
  0 <= getCount parent false <= getCount parent true
  /\ getCount parent false <= Z.of_nat (List.length (childNodes parent)).
Proof.
  split; [split; [apply getCount_nonneg|]|].
  - rewrite DomFacts.getCount_false_loop, getCount_true_loop.
    generalize (childNodes parent). intro l.
    induction l as [|c r IH]; cbn [countLoop deepLoop]; [lia|].
    destruct (negb (nodeType c =? 3)); [|exact IH].
    rewrite DomFacts.countLoop_filter in *. rewrite deepLoop_acc.
    pose proof (getCount_nonneg c true). lia.
  - rewrite DomFacts.getCount_nonText. unfold nonTextChildren.
    pose proof (filter_length_le (fun c => negb (nodeType c =? TEXT_NODE))
                                 (childNodes parent)).
    lia.
Qed.

(** X2.  On a tree without text nodes, [getCount(parent, true)] is the
    number of nodes below [parent]: every descendant is counted once. *)
Theorem getCount_deep_descendants (parent : Node) :
  noText parent = true -> getCount parent true = size parent - 1.
Proof.
  induction parent as [t nodes IH] using Node_children_ind.
  intro H. rewrite getCount_true_loop. cbn [childNodes size].
  cbn [noText] in H. apply andb_true_iff in H. destruct H as [_ H].
  match goal with |- _ = 1 + ?s - 1 => replace (1 + s - 1) with s by lia end.
  induction IH as [|c r Hc _ IHr]; cbn [deepLoop]; [reflexivity|].
  apply andb_true_iff in H. destruct H as [H1 H2].
  assert (Hn : negb (nodeType c =? 3) = true).
  { destruct c as [tc cs]. cbn [noText] in H1. apply andb_true_iff in H1.
    exact (proj1 H1). }
  rewrite Hn, deepLoop_acc, (Hc H1), (IHr H2). lia.
Qed.

Lemma getCount_deep_descendants_witness :
  let tree := element [element [element []; comment]; element []] in
  noText tree = true /\ getCount tree true = size tree - 1.
Proof.
  intro tree.
  assert (H : noText tree = true) by reflexivity.
  split; [exact H | exact (getCount_deep_descendants tree H)].
Defined.

End DomTreeFacts.

(** ** The easing curve *)

Lemma quint_nonneg (u : Q) : (0 <= u -> 0 <= u * u * u * u * u)%Q.
Proof.
  intro H. repeat apply Qmult_le_0_compat; assumption.
Qed.

Lemma quint_monotone_nonneg (u v : Q) :
  (0 <= u -> u <= v -> u * u * u * u * u <= v * v * v * v * v)%Q.
Proof.
  intros Hu Huv.
  assert (Hv : (0 <= v)%Q) by (eapply Qle_trans; eassumption).
  assert (M : forall a b, (0 <= a -> a <= b -> a * u <= b * v)%Q).
  { intros a b Ha Hab. apply Qle_trans with (b * u)%Q.
    - apply Qmult_le_compat_r; assumption.
    - rewrite (Qmult_comm b u), (Qmult_comm b v).
      apply Qmult_le_compat_r; [assumption | eapply Qle_trans; eassumption]. }
  apply M; [repeat apply Qmult_le_0_compat; assumption|].
  apply M; [repeat apply Qmult_le_0_compat; assumption|].
  apply M; [repeat apply Qmult_le_0_compat; assumption|].
  apply M; assumption.
Qed.

Lemma quint_monotone (u v : Q) :
  (u <= v -> u * u * u * u * u <= v * v * v * v * v)%Q.
Proof.
  intro Huv.
  destruct (Qlt_le_dec u 0) as [Hu|Hu]; destruct (Qlt_le_dec v 0) as [Hv|Hv].
  - assert (H : (- v * - v * - v * - v * - v <= - u * - u * - u * - u * - u)%Q).
    { apply quint_monotone_nonneg; lra. }
    assert (E : forall x, (- x * - x * - x * - x * - x == - (x * x * x * x * x))%Q)
      by (intro; ring).
    rewrite !E in H. lra.
  - assert (H1 : (0 <= - u * - u * - u * - u * - u)%Q) by (apply quint_nonneg; lra).
    assert (E : (- u * - u * - u * - u * - u == - (u * u * u * u * u))%Q) by ring.
    rewrite E in H1.
    pose proof (quint_nonneg v Hv). lra.
  - lra.
  - apply quint_monotone_nonneg; assumption.
Qed.

Lemma easing_monotone (x t1 t2 b c d : Q) :
  (0 < d -> 0 <= c -> t1 <= t2 ->
   easingOutQuint x t1 b c d <= easingOutQuint x t2 b c d)%Q.
Proof.
  intros Hd Hc Ht. unfold easingOutQuint. cbv zeta.
  assert (Hu : (t1 / d - 1 <= t2 / d - 1)%Q).
  { unfold Qdiv. apply Qplus_le_compat; [|apply Qle_refl].
    apply Qmult_le_compat_r; [assumption|]. apply Qlt_le_weak, Qinv_lt_0_compat, Hd. }
  pose proof (quint_monotone _ _ Hu) as H.
  apply Qplus_le_compat; [|apply Qle_refl].
  rewrite !(Qmult_comm c). apply Qmult_le_compat_r; [|assumption].
  apply Qplus_le_compat; [assumption | apply Qle_refl].
Qed.

Lemma easing_antitone (x t1 t2 b c d : Q) :
  (0 < d -> c <= 0 -> t1 <= t2 ->
   easingOutQuint x t2 b c d <= easingOutQuint x t1 b c d)%Q.
Proof.
  intros Hd Hc Ht.
  pose proof (easing_monotone x t1 t2 (- b) (- c) d Hd) as H.
  assert (E : forall t, (easingOutQuint x t (- b) (- c) d == - easingOutQuint x t b c d)%Q)
    by (intro; unfold easingOutQuint; cbv zeta; ring).
  rewrite !E in H. lra.
Qed.

Lemma easing_start (x b c d : Q) :
  (easingOutQuint x 0 b c d == b)%Q.
Proof. unfold easingOutQuint. cbv zeta. unfold Qdiv. ring. Qed.

Lemma easing_end (x b c d : Q) :
  (~ d == 0 -> easingOutQuint x d b c d == b + c)%Q.
Proof. intro H. unfold easingOutQuint. cbv zeta. field. exact H. Qed.

Lemma easing_between (x t b c d : Q) :
  (0 < d)%Q -> (0 <= t)%Q -> (t <= d)%Q ->
  between b (easingOutQuint x t b c d) (b + c).
Proof.
  intros Hd H0 H1.
  assert (Hd' : ~ (d == 0)%Q) by lra.
  destruct (Qlt_le_dec c 0) as [Hc|Hc]; [right|left].
  - pose proof (easing_antitone x 0 t b c d Hd (Qlt_le_weak _ _ Hc) H0) as A.
    pose proof (easing_antitone x t d b c d Hd (Qlt_le_weak _ _ Hc) H1) as B.
    rewrite easing_start in A. rewrite easing_end in B by assumption. split; assumption.
  - pose proof (easing_monotone x 0 t b c d Hd Hc H0) as A.
    pose proof (easing_monotone x t d b c d Hd Hc H1) as B.
    rewrite easing_start in A. rewrite easing_end in B by assumption. split; assumption.
Qed.

(** X3.  For a positive duration, the curve starts at [b], ends at
    [b + c], and in between stays between the two: the eased position
    never leaves the segment from the start to the target. *)
Theorem easingOutQuint_stays_between (x t b c d : Q) :
  (0 < d)%Q -> (0 <= t)%Q -> (t <= d)%Q ->
  (easingOutQuint x 0 b c d == b)%Q
  /\ (easingOutQuint x d b c d == b + c)%Q
  /\ between b (easingOutQuint x t b c d) (b + c).
Proof.
  intros Hd H0 H1. split; [apply easing_start|].
  split; [apply easing_end; lra | apply easing_between; assumption].
Qed.

Lemma easingOutQuint_stays_between_witness :
  (0 < 800)%Q /\ (0 <= 200)%Q /\ (200 <= 800)%Q
  /\ between 100 (easingOutQuint 0 200 100 1080 800) (100 + 1080).
Proof.
  assert (Hd : (0 < 800)%Q) by reflexivity.
  assert (H0 : (0 <= 200)%Q) by discriminate.
  assert (H1 : (200 <= 800)%Q) by discriminate.
  repeat (split; [assumption|]).
  exact (proj2 (proj2 (easingOutQuint_stays_between 0 200 100 1080 800 Hd H0 H1))).
Defined.

(** X4.  For a positive duration the curve is monotone in time: it never
    moves back towards the start, for a gap of either sign and for every
    pair of times. *)
Theorem easingOutQuint_monotone (x t1 t2 b c d : Q) :
  (0 < d)%Q -> (t1 <= t2)%Q ->
  ((0 <= c)%Q -> (easingOutQuint x t1 b c d <= easingOutQuint x t2 b c d)%Q)
  /\ ((c <= 0)%Q -> (easingOutQuint x t2 b c d <= easingOutQuint x t1 b c d)%Q).
Proof.
  intros Hd Ht. split; intro Hc.
  - apply easing_monotone; assumption.
  - apply easing_antitone; assumption.
Qed.

Lemma easingOutQuint_monotone_witness :
  (0 < 800)%Q /\ (100 <= 400)%Q
  /\ (easingOutQuint 0 100 0 1080 800 <= easingOutQuint 0 400 0 1080 800)%Q.
Proof.
  assert (Hd : (0 < 800)%Q) by reflexivity.
  assert (Ht : (100 <= 400)%Q) by discriminate.
  repeat (split; [assumption|]).
  apply (proj1 (easingOutQuint_monotone 0 100 400 0 1080 800 Hd Ht)).
  discriminate.
Defined.

(** ** What every reachable state satisfies *)

Lemma navigateToSlide_frame index t0 t1 st :
  let st' := fst (navigateToSlide index t0 t1 st) in
  slideCount st' = slideCount st
  /\ hasNativeSmoothScroll st' = hasNativeSmoothScroll st
  /\ List.length (indicators st') = List.length (indicators st).
Proof.
  unfold navigateToSlide.
  destruct (isScrolling st || (index <? 0) || (index >=? slideCount st)).
  - cbn. auto.
  - match goal with
    | |- context [smoothScroll ?top ?cb t0 t1 ?s] =>
        destruct (smoothScroll_frame top cb t0 t1 s) as (H1 & _ & H3 & H4)
    end.
    cbv zeta. rewrite H1, H3, H4. cbn. repeat split.
    unfold setAriaPressed. apply forEach_length.
Qed.

Lemma dispatch_frame ev st :
  let st' := fst (dispatch ev st) in
  slideCount st' = slideCount st
  /\ hasNativeSmoothScroll st' = hasNativeSmoothScroll st
  /\ List.length (indicators st') = List.length (indicators st).
Proof.
  destruct ev as [i t0 t1|e t0 t1| |now| |box]; cbn [dispatch].
  - destruct (i <? List.length (indicators st))%nat; [|cbn; auto].
    unfold clickListener.
    pose proof (navigateToSlide_frame (Z.of_nat i) t0 t1 st) as H.
    destruct (navigateToSlide (Z.of_nat i) t0 t1 st). exact H.
  - assert (C : forall s, slideCount (cancelAnimation s) = slideCount s
                /\ hasNativeSmoothScroll (cancelAnimation s) = hasNativeSmoothScroll s
                /\ indicators (cancelAnimation s) = indicators s)
      by (intro s; unfold cancelAnimation; destruct (animation s); cbn; auto).
    set (s := if wheelCancelRegistered st then cancelAnimation st else st).
    assert (Hs : slideCount s = slideCount st
                 /\ hasNativeSmoothScroll s = hasNativeSmoothScroll st
                 /\ indicators s = indicators st)
      by (subst s; destruct (wheelCancelRegistered st); [apply C | auto]).
    destruct Hs as (E1 & E2 & E3). rewrite <- E1, <- E2, <- E3.
    unfold wheelListener. destruct (wheelExit e s); cbn [fst]; auto.
    pose proof (navigateToSlide_frame nextSlideIndex t0 t1 s) as H.
    destruct (navigateToSlide nextSlideIndex t0 t1 s). exact H.
  - cbn. unfold cancelAnimation.
    destruct (touchstartCancelRegistered st), (animation st); cbn; auto.
  - destruct (animation st) as [a|]; [|cbn; auto].
    destruct (frameRequested a); [|cbn; auto].
    match goal with
    | |- context [step ?n ?b ?s] =>
        destruct (step_frame n b s) as (H1 & H2 & _ & H4 & _)
    end.
    cbv zeta. rewrite H1, H2, H4. cbn. auto.
  - destruct (timeouts st) as [|[] rest]; cbn; auto.
  - cbn. auto.
Qed.

Lemma run_frame evs st :
  let st' := fst (run evs st) in
  slideCount st' = slideCount st
  /\ hasNativeSmoothScroll st' = hasNativeSmoothScroll st
  /\ List.length (indicators st') = List.length (indicators st).
Proof.
  revert st. induction evs as [|ev evs IH]; intro st; cbn [run].
  - cbn. auto.
  - pose proof (dispatch_frame ev st) as H.
    destruct (dispatch ev st) as [s1 f1]. cbn [fst] in H.
    specialize (IH s1). destruct (run evs s1) as [s2 f2]. cbn [fst] in *.
    destruct H as (H1 & H2 & H3), IH as (I1 & I2 & I3).
    rewrite I1, I2, I3. auto.
Qed.

Lemma reachable_slideCount_nonneg st : reachable st -> 0 <= slideCount st.
Proof.
  induction 1 as [native tree box inds st H|ev st _ IH].
  - cbn in H. injection H as <-. cbn. 
    rewrite DomFacts.getCount_nonText. lia.
  - destruct (dispatch_frame ev st) as (-> & _). exact IH.
Qed.

(** X5.  In every state a loaded page reaches, the slide count is not
    negative and the current index is a slide: at least 0 and, when there
    is a slide at all, below [slideCount]. *)
Theorem index_within_slides (st : State) :
  reachable st ->
  0 <= slideCount st
  /\ 0 <= currentSlideIndex st
  /\ (0 < slideCount st -> currentSlideIndex st < slideCount st)
  /\ (slideCount st = 0 -> currentSlideIndex st = 0).
Proof.
  intro Hr. pose proof (reachable_slideCount_nonneg st Hr).
  destruct (reachable_coherent st Hr) as [H1 H2 _ _ _ _].
  repeat split; try assumption; lia.
Qed.

(** X6.  In every reachable state at most one completion timer is
    pending, a pending timer and a manual animation exclude each other, a
    pending timer means the lock is held, and a free lock means that
    nothing is in flight: no timer, no frame requested, no [cancel]
    listener registered. *)
Theorem single_flight (st : State) :
  reachable st ->
  (List.length (timeouts st) <= 1)%nat
  /\ (animation st <> None -> timeouts st = [])
  /\ (timeouts st <> [] -> animation st = None /\ isScrolling st = true)
  /\ (isScrolling st = false -> timeouts st = [] /\ inert (animation st)).
Proof.
  intro Hr. destruct (reachable_coherent st Hr) as [_ _ H3 H4 H5 H6].
  split; [exact H5|]. split; [|split].
  - intro Ha. apply H4. destruct (hasNativeSmoothScroll st); [|reflexivity].
    elim Ha. apply H6. reflexivity.
  - intro Ht. split.
    + apply H6. destruct (hasNativeSmoothScroll st); [reflexivity|].
      elim Ht. apply H4. reflexivity.
    + destruct (isScrolling st); [reflexivity|].
      elim Ht. apply H3. reflexivity.
  - intro Hs. destruct (H3 Hs). split; assumption.
Qed.

Lemma setAriaLabels_nth_error l k indicator :
  nth_error (setAriaLabels l) k = Some indicator ->
  ariaLabel indicator = Some (itemLabel k).
Proof.
  unfold setAriaLabels. rewrite forEach_nth_error.
  destruct (nth_error l k); [|discriminate].
  cbn. intro H. injection H as <-. reflexivity.
Qed.

Lemma setAriaPressed_label activeIndex l k indicator :
  nth_error (setAriaPressed activeIndex l) k = Some indicator ->
  exists old, nth_error l k = Some old /\ ariaLabel indicator = ariaLabel old.
Proof.
  unfold setAriaPressed. rewrite forEach_nth_error.
  destruct (nth_error l k) as [old|]; [|discriminate].
  cbn. intro H. injection H as <-. exists old. auto.
Qed.

Lemma mirrors_same st st' :
  indicators st' = indicators st ->
  currentSlideIndex st' = currentSlideIndex st ->
  mirrors st -> mirrors st'.
Proof. unfold mirrors. intros -> ->. auto. Qed.

Lemma navigateToSlide_mirrors index t0 t1 st :
  mirrors st -> mirrors (fst (navigateToSlide index t0 t1 st)).
Proof.
  intro Hm. unfold navigateToSlide.
  destruct (isScrolling st || (index <? 0) || (index >=? slideCount st)).
  - exact Hm.
  - match goal with
    | |- context [smoothScroll ?top ?cb t0 t1 ?s] =>
        destruct (smoothScroll_frame top cb t0 t1 s) as (_ & H2 & H3 & _)
    end.
    cbv zeta. intros k ind. rewrite H2, H3. cbn. intro E. split.
    + exact (setAriaPressed_nth_error _ _ _ _ E).
    + destruct (setAriaPressed_label _ _ _ _ E) as (old & Eo & ->).
      apply (Hm k old Eo).
Qed.

Lemma dispatch_mirrors ev st : mirrors st -> mirrors (fst (dispatch ev st)).
Proof.
  intro Hm. destruct ev as [i t0 t1|e t0 t1| |now| |box]; cbn [dispatch].
  - destruct (i <? List.length (indicators st))%nat; [|exact Hm].
    unfold clickListener.
    pose proof (navigateToSlide_mirrors (Z.of_nat i) t0 t1 st Hm) as H.
    destruct (navigateToSlide (Z.of_nat i) t0 t1 st). exact H.
  - set (s := if wheelCancelRegistered st then cancelAnimation st else st).
    assert (Hs : mirrors s).
    { subst s. destruct (wheelCancelRegistered st); [|exact Hm].
      unfold cancelAnimation. destruct (animation st); exact Hm. }
    unfold wheelListener. destruct (wheelExit e s); cbn [fst]; try exact Hs.
    pose proof (navigateToSlide_mirrors nextSlideIndex t0 t1 s Hs) as H.
    destruct (navigateToSlide nextSlideIndex t0 t1 s). exact H.
  - cbn. unfold cancelAnimation.
    destruct (touchstartCancelRegistered st), (animation st); exact Hm.
  - destruct (animation st) as [a|]; [|exact Hm].
    destruct (frameRequested a); [|exact Hm].
    match goal with
    | |- context [step ?n ?b ?s] =>
        destruct (step_frame n b s) as (_ & _ & H3 & H4 & _)
    end.
    eapply mirrors_same; [exact H4 | exact H3 | exact Hm].
  - destruct (timeouts st) as [|[] rest]; exact Hm.
  - exact Hm.
Qed.

Lemma reachable_mirrors st : reachable st -> mirrors st.
Proof.
  induction 1 as [native tree box inds st H|ev st _ IH].
  - cbn in H. injection H as <-. intros k ind. cbn. intro E. split.
    + exact (setAriaPressed_nth_error _ _ _ _ E).
    + destruct (setAriaPressed_label _ _ _ _ E) as (old & Eo & ->).
      exact (setAriaLabels_nth_error _ _ _ Eo).
  - apply dispatch_mirrors, IH.
Qed.

(** X7.  In every reachable state each indicator carries the label
    "Scroll to item #k+1" of its position [k], and its [aria-pressed] is
    "true" exactly when [k] is the current slide index. *)
Theorem indicators_mirror_index (st : State) (k : nat) (indicator : Indicator) :
  reachable st ->
  nth_error (indicators st) k = Some indicator ->
  pressed indicator = (Z.of_nat k =? currentSlideIndex st)
  /\ ariaLabel indicator = Some (itemLabel k).
Proof. intros Hr. apply reachable_mirrors, Hr. Qed.

Lemma index_within_slides_witness :
  let st := fst (run [Click 2 0 0; TimeoutFired] (page true 4)) in
  reachable st /\ 0 <= currentSlideIndex st < slideCount st.
Proof.
  intro st.
  assert (Hr : reachable st) by apply reachable_run, reachable_page.
  destruct (index_within_slides st Hr) as (_ & H1 & H2 & _).
  split; [exact Hr|]. split; [exact H1 | apply H2; reflexivity].
Defined.

Lemma single_flight_witness :
  let st := fst (run [Click 1 0 0] (page true 3)) in
  reachable st /\ animation st = None /\ isScrolling st = true.
Proof.
  intro st.
  assert (Hr : reachable st) by apply reachable_run, reachable_page.
  destruct (single_flight st Hr) as (_ & _ & H & _).
  split; [exact Hr|]. apply H. discriminate.
Defined.

Lemma indicators_mirror_index_witness :
  let st := fst (run [Click 2 0 0] (page true 4)) in
  let indicator := mkIndicator (Some "Scroll to item #3"%string) (Some "true"%string) in
  reachable st
  /\ nth_error (indicators st) 2 = Some indicator
  /\ pressed indicator = (Z.of_nat 2 =? currentSlideIndex st)
  /\ ariaLabel indicator = Some (itemLabel 2).
Proof.
  intros st indicator.
  assert (Hr : reachable st) by apply reachable_run, reachable_page.
  assert (Hn : nth_error (indicators st) 2 = Some indicator) by reflexivity.
  split; [exact Hr|]. split; [exact Hn|].
  exact (indicators_mirror_index st 2 indicator Hr Hn).
Defined.

(** ** An accepted navigation, from start to end *)

Lemma navigateToSlide_started (index t0 t1 : Z) (st : State) :
  isScrolling st = false ->
  0 <= index < slideCount st ->
  let top := inject_Z (targetScrollTop (scrollHeight (scroller st)) index (slideCount st)) in
  let st' := fst (navigateToSlide index t0 t1 st) in
  let fx := snd (navigateToSlide index t0 t1 st) in
  (hasNativeSmoothScroll st = true ->
   fx = [ScrollToSmooth top]
   /\ isScrolling st' = true
   /\ timeouts st' = timeouts st ++ [ReleaseLock]
   /\ animation st' = animation st
   /\ scroller st' = scroller st)
  /\ (hasNativeSmoothScroll st = false -> t1 - t0 <= SCROLL_DURATION ->
      isScrolling st' = true
      /\ timeouts st' = timeouts st
      /\ (exists v, fx = [SetScrollTop v])
      /\ animation st'
         = Some (mkPolyfill t0 (scrollTop (scroller st)) (top - scrollTop (scroller st))
                            top (Some ReleaseLock) false true true true)).
Proof.
  intros Hs Hi top st' fx. subst st' fx.
  rewrite navigateToSlide_accepted by assumption. fold top.
  unfold smoothScroll. cbn [set_indicators set_currentSlideIndex set_isScrolling
                             hasNativeSmoothScroll].
  split.
  - intros ->. cbn. auto.
  - intros -> Ht. unfold smoothScrollPolyfill, step.
    cbn [interrupt startTime]. rewrite percentage_over.
    destruct (Z.ltb_spec SCROLL_DURATION (t1 - t0)); [lia|].
    cbn. repeat split. eexists. reflexivity.
Qed.

Lemma awaitingTimeout_dispatch i ev st :
  isTimeout ev = false -> awaitingTimeout i st ->
  awaitingTimeout i (fst (dispatch ev st)).
Proof.
  intros Hev (Hn & Hs & Ht & Ha & Hi).
  assert (H : awaitingTimeout i st) by (repeat split; assumption).
  destruct ev as [k t0 t1|e t0 t1| |now| |box]; cbn [dispatch];
    try discriminate.
  - destruct (k <? List.length (indicators st))%nat; [|exact H].
    unfold clickListener. rewrite navigateToSlide_guarded by auto. exact H.
  - unfold wheelCancelRegistered. rewrite Ha.
    unfold wheelListener, wheelExit. rewrite Hs. exact H.
  - unfold touchstartCancelRegistered. rewrite Ha. exact H.
  - rewrite Ha. exact H.
  - repeat split; assumption.
Qed.

Lemma awaitingTimeout_run i evs st :
  forallb (fun ev => negb (isTimeout ev)) evs = true ->
  awaitingTimeout i st ->
  awaitingTimeout i (fst (run evs st)).
Proof.
  revert st. induction evs as [|ev evs IH]; intros st Hev H; cbn [run].
  - exact H.
  - cbn [forallb] in Hev. apply andb_true_iff in Hev. destruct Hev as [H1 H2].
    apply negb_true_iff in H1.
    pose proof (awaitingTimeout_dispatch i ev st H1 H) as Hd.
    destruct (dispatch ev st) as [s1 f1]. cbn [fst] in Hd.
    specialize (IH s1 H2 Hd). destruct (run evs s1). exact IH.
Qed.

(** X9.  With native smooth scrolling, after an accepted navigation in a
    reachable state the lock stays held and the index stays where it was
    put through every sequence of clicks, wheel events, touches, frames and
    layout changes; the timer then releases the lock and nothing remains
    pending. *)
Theorem native_scroll_holds_lock_until_timer (index t0 t1 : Z) (st : State) (evs : list Event) :
  reachable st ->
  hasNativeSmoothScroll st = true ->
  isScrolling st = false ->
  0 <= index < slideCount st ->
  forallb (fun ev => negb (isTimeout ev)) evs = true ->
  let waiting := fst (run evs (fst (navigateToSlide index t0 t1 st))) in
  let released := fst (dispatch TimeoutFired waiting) in
  isScrolling waiting = true
  /\ currentSlideIndex waiting = index
  /\ isScrolling released = false
  /\ currentSlideIndex released = index
  /\ timeouts released = [].
Proof.
  intros Hr Hn Hs Hi Hev waiting released.
  assert (H0 : awaitingTimeout index (fst (navigateToSlide index t0 t1 st))).
  { destruct (navigateToSlide_started index t0 t1 st Hs Hi) as [H _].
    destruct (H Hn) as (_ & H2 & H3 & H4 & _).
    destruct (free_inert st (reachable_coherent st Hr) Hs) as [_ Ht].
    rewrite Ht in H3.
    destruct (navigateToSlide_frame index t0 t1 st) as (_ & Hn' & _).
    repeat split; try assumption.
    - rewrite Hn'. exact Hn.
    - rewrite H4. apply (native_no_polyfill st (reachable_coherent st Hr) Hn).
    - rewrite navigateToSlide_index, Hs. cbn [orb].
      destruct (Z.ltb_spec index 0), (Z.geb_spec index (slideCount st));
        try reflexivity; lia. }
  destruct (awaitingTimeout_run index evs _ Hev H0) as (_ & W1 & W2 & _ & W4).
  fold waiting in W1, W2, W4. subst released.
  cbn [dispatch]. rewrite W2. cbn. auto.
Qed.

Lemma animating_dispatch t0 top i ev st :
  quiet (t0 + SCROLL_DURATION) ev -> animating t0 top i st ->
  animating t0 top i (fst (dispatch ev st)).
Proof.
  intros Hq (Hn & Hs & Ht & Hi & a & Ea & A1 & A2 & A3 & A4 & A5 & A6 & A7).
  assert (H : animating t0 top i st).
  { repeat split; try assumption. exists a. repeat split; assumption. }
  destruct ev as [k u0 u1|e u0 u1| |now| |box]; cbn [dispatch]; cbn in Hq;
    try contradiction.
  - destruct (k <? List.length (indicators st))%nat; [|exact H].
    unfold clickListener. rewrite navigateToSlide_guarded by auto. exact H.
  - rewrite Ea, A7. unfold step. cbn [set_frameRequested interrupt startTime].
    rewrite A4, A1, percentage_over.
    destruct (Z.ltb_spec SCROLL_DURATION (now - t0)); [lia|].
    cbn. repeat split; try assumption.
    eexists. split; [reflexivity|]. cbn. repeat split; assumption.
  - rewrite Ht. exact H.
  - cbn. repeat split; try assumption. exists a. repeat split; assumption.
Qed.

Lemma animating_run t0 top i evs st :
  Forall (quiet (t0 + SCROLL_DURATION)) evs -> animating t0 top i st ->
  animating t0 top i (fst (run evs st)).
Proof.
  intros Hq. revert st. induction Hq as [|ev evs Hev _ IH]; intros st H; cbn [run].
  - exact H.
  - pose proof (animating_dispatch t0 top i ev st Hev H) as Hd.
    destruct (dispatch ev st) as [s1 f1]. cbn [fst] in Hd.
    specialize (IH s1 Hd). destruct (run evs s1). exact IH.
Qed.

(** X10.  Without native smooth scrolling, after an accepted navigation
    in a reachable state, as long as no wheel or touch-start event arrives
    and no frame comes later than 800 ms after the start, the lock stays
    held; the first frame after the 800 ms writes the target offset,
    releases the lock and leaves nothing registered or requested. *)
Theorem manual_scroll_completes (index t0 t1 now : Z) (st : State) (evs : list Event) :
  reachable st ->
  hasNativeSmoothScroll st = false ->
  isScrolling st = false ->
  0 <= index < slideCount st ->
  t1 - t0 <= SCROLL_DURATION ->
  Forall (quiet (t0 + SCROLL_DURATION)) evs ->
  t0 + SCROLL_DURATION < now ->
  let top := inject_Z (targetScrollTop (scrollHeight (scroller st)) index (slideCount st)) in
  let flying := fst (run evs (fst (navigateToSlide index t0 t1 st))) in
  let landed := dispatch (AnimationFrame now) flying in
  isScrolling flying = true
  /\ currentSlideIndex flying = index
  /\ snd landed = [SetScrollTop top]
  /\ scrollTop (scroller (fst landed)) = top
  /\ isScrolling (fst landed) = false
  /\ currentSlideIndex (fst landed) = index
  /\ inert (animation (fst landed)).
Proof.
  intros Hr Hn Hs Hi Hd Hq Hnow top flying landed.
  pose proof (polyfill_no_timeout st (reachable_coherent st Hr) Hn) as Ht.
  assert (H0 : animating t0 top index (fst (navigateToSlide index t0 t1 st))).
  { destruct (navigateToSlide_started index t0 t1 st Hs Hi) as [_ H].
    destruct (H Hn Hd) as (H1 & H2 & _ & H4). fold top in H4.
    destruct (navigateToSlide_frame index t0 t1 st) as (_ & Hn' & _).
    repeat split.
    - rewrite Hn'. exact Hn.
    - exact H1.
    - rewrite H2. exact Ht.
    - rewrite navigateToSlide_index, Hs. cbn [orb].
      destruct (Z.ltb_spec index 0), (Z.geb_spec index (slideCount st));
        try reflexivity; lia.
    - eexists. split; [exact H4|]. cbn. repeat split. }
  destruct (animating_run t0 top index evs _ Hq H0)
    as (_ & W2 & _ & W4 & a & Ea & A1 & A2 & A3 & A4 & A5 & A6 & A7).
  fold flying in W2, W4, Ea. subst landed.
  split; [exact W2|]. split; [exact W4|].
  cbn [dispatch]. rewrite Ea, A7. unfold step.
  cbn [set_frameRequested interrupt startTime onComplete target].
  rewrite A4, A1, A2, A3, percentage_over.
  destruct (Z.ltb_spec SCROLL_DURATION (now - t0)); [|lia].
  cbn. repeat split; assumption.
Qed.



Lemma native_scroll_holds_lock_until_timer_witness :
  let st := page true 3 in
  let evs := [Click 2 5 5; Wheel (mkWheel 100 [block]) 6 6; TouchStart;
              AnimationFrame 16] in
  let waiting := fst (run evs (fst (navigateToSlide 1 0 0 st))) in
  reachable st
  /\ hasNativeSmoothScroll st = true
  /\ isScrolling st = false
  /\ 0 <= 1 < slideCount st
  /\ forallb (fun ev => negb (isTimeout ev)) evs = true
  /\ isScrolling waiting = true
  /\ currentSlideIndex waiting = 1
  /\ isScrolling (fst (dispatch TimeoutFired waiting)) = false.
Proof.
  intros st evs waiting.
  assert (Hr : reachable st) by apply reachable_page.
  assert (Hn : hasNativeSmoothScroll st = true) by reflexivity.
  assert (Hs : isScrolling st = false) by reflexivity.
  assert (Hi : 0 <= 1 < slideCount st) by (split; [discriminate | reflexivity]).
  assert (He : forallb (fun ev => negb (isTimeout ev)) evs = true) by reflexivity.
  destruct (native_scroll_holds_lock_until_timer 1 0 0 st evs Hr Hn Hs Hi He)
    as (H1 & H2 & H3 & _).
  split; [exact Hr|]. split; [exact Hn|]. split; [exact Hs|].
  split; [exact Hi|]. split; [exact He|]. split; [exact H1|].
  split; [exact H2 | exact H3].
Defined.

Lemma manual_scroll_completes_witness :
  let st := page false 3 in
  let evs := [AnimationFrame 16; Click 2 20 20; AnimationFrame 800] in
  let flying := fst (run evs (fst (navigateToSlide 1 0 0 st))) in
  reachable st
  /\ hasNativeSmoothScroll st = false
  /\ isScrolling st = false
  /\ 0 <= 1 < slideCount st
  /\ 0 - 0 <= SCROLL_DURATION
  /\ Forall (quiet (0 + SCROLL_DURATION)) evs
  /\ 0 + SCROLL_DURATION < 801
  /\ isScrolling flying = true
  /\ snd (dispatch (AnimationFrame 801) flying) = [SetScrollTop (inject_Z 1080)]
  /\ isScrolling (fst (dispatch (AnimationFrame 801) flying)) = false.
Proof.
  intros st evs flying.
  assert (Hr : reachable st) by apply reachable_page.
  assert (Hn : hasNativeSmoothScroll st = false) by reflexivity.
  assert (Hs : isScrolling st = false) by reflexivity.
  assert (Hi : 0 <= 1 < slideCount st) by (split; [discriminate | reflexivity]).
  assert (Hd : 0 - 0 <= SCROLL_DURATION) by discriminate.
  assert (Hq : Forall (quiet (0 + SCROLL_DURATION)) evs)
    by (repeat constructor; discriminate).
  assert (Hnow : 0 + SCROLL_DURATION < 801) by reflexivity.
  destruct (manual_scroll_completes 1 0 0 801 st evs Hr Hn Hs Hi Hd Hq Hnow)
    as (H1 & _ & H3 & _ & H5 & _).
  split; [exact Hr|]. split; [exact Hn|]. split; [exact Hs|].
  split; [exact Hi|]. split; [exact Hd|]. split; [exact Hq|].
  split; [exact Hnow|]. split; [exact H1|]. split; [exact H3 | exact H5].
Defined.

(** ** The two animation paths *)

Lemma step_noScrollTo now a st : noScrollTo (snd (step now a st)).
Proof. step_cases; cbn; repeat constructor. Qed.

Lemma navigateToSlide_effects index t0 t1 st :
  (hasNativeSmoothScroll st = true -> noWrites (snd (navigateToSlide index t0 t1 st)))
  /\ (hasNativeSmoothScroll st = false -> noScrollTo (snd (navigateToSlide index t0 t1 st))).
Proof.
  unfold navigateToSlide.
  destruct (isScrolling st || (index <? 0) || (index >=? slideCount st)).
  - split; intros _; constructor.
  - unfold smoothScroll. cbn [set_indicators set_currentSlideIndex set_isScrolling
                               hasNativeSmoothScroll].
    split; intros ->.
    + cbn. repeat constructor.
    + unfold smoothScrollPolyfill. apply step_noScrollTo.
Qed.

Lemma dispatch_effects ev st :
  coherent st ->
  (hasNativeSmoothScroll st = true -> noWrites (snd (dispatch ev st)))
  /\ (hasNativeSmoothScroll st = false -> noScrollTo (snd (dispatch ev st))).
Proof.
  intro Hc. destruct ev as [i t0 t1|e t0 t1| |now| |box]; cbn [dispatch].
  - destruct (i <? List.length (indicators st))%nat;
      [|split; intros _; constructor].
    unfold clickListener.
    destruct (navigateToSlide_effects (Z.of_nat i) t0 t1 st) as [H1 H2].
    destruct (navigateToSlide (Z.of_nat i) t0 t1 st). cbn [snd] in *.
    split; intro Hn; repeat constructor; [apply H1 | apply H2]; exact Hn.
  - set (s := if wheelCancelRegistered st then cancelAnimation st else st).
    assert (Hs : hasNativeSmoothScroll s = hasNativeSmoothScroll st).
    { subst s. destruct (wheelCancelRegistered st); [|reflexivity].
      unfold cancelAnimation. destruct (animation st); reflexivity. }
    rewrite <- Hs. unfold wheelListener.
    destruct (wheelExit e s); cbn [snd];
      [split; intros _; repeat constructor
      |split; intros _; repeat constructor|].
    destruct (navigateToSlide_effects nextSlideIndex t0 t1 s) as [H1 H2].
    destruct (navigateToSlide nextSlideIndex t0 t1 s). cbn [snd] in *.
    split; intro Hn; repeat constructor; [apply H1 | apply H2]; exact Hn.
  - split; intros _; constructor.
  - split.
    + intro Hn. rewrite (native_no_polyfill st Hc Hn). constructor.
    + intros _. destruct (animation st) as [a|]; [|constructor].
      destruct (frameRequested a); [apply step_noScrollTo | constructor].
  - destruct (timeouts st); split; intros _; constructor.
  - split; intros _; constructor.
Qed.

(** X11.  From a reachable state on, a page with native smooth scrolling
    never assigns the scroll offset itself, and a page without it never
    calls the native [scrollTo]: the capability probed at start decides
    once for all events. *)
Theorem animation_paths_never_mix (st : State) (evs : list Event) :
  reachable st ->
  (hasNativeSmoothScroll st = true -> noWrites (snd (run evs st)))
  /\ (hasNativeSmoothScroll st = false -> noScrollTo (snd (run evs st))).
Proof.
  intro Hr. apply reachable_coherent in Hr.
  revert st Hr. induction evs as [|ev evs IH]; intros st Hc; cbn [run].
  - split; intros _; constructor.
  - destruct (dispatch_effects ev st Hc) as [D1 D2].
    pose proof (dispatch_coherent ev st Hc) as Hc1.
    destruct (dispatch_frame ev st) as (_ & Hn & _).
    destruct (dispatch ev st) as [s1 f1]. cbn [fst snd] in *.
    destruct (IH s1 Hc1) as [I1 I2]. rewrite Hn in I1, I2.
    destruct (run evs s1) as [s2 f2]. cbn [snd] in *.
    split; intro H; apply Forall_app; split;
      [apply D1 | apply I1 | apply D2 | apply I2]; exact H.
Qed.

(** ** Where the animation writes *)

Lemma step_closure now a st a' :
  animation (fst (step now a st)) = Some a' ->
  animation st = Some a'
  \/ (gap a' = gap a /\ target a' = target a /\ offset a' = offset a).
Proof.
  step_cases; cbn; intro E; try (left; exact E);
    right; injection E as <-; cbn; auto.
Qed.

Lemma navigateToSlide_closed index t0 t1 st :
  closed st -> closed (fst (navigateToSlide index t0 t1 st)).
Proof.
  intro Hc. unfold navigateToSlide.
  destruct (isScrolling st || (index <? 0) || (index >=? slideCount st)).
  - exact Hc.
  - unfold smoothScroll. cbn [set_indicators set_currentSlideIndex set_isScrolling
                               hasNativeSmoothScroll].
    destruct (hasNativeSmoothScroll st).
    + cbn. exact Hc.
    + unfold smoothScrollPolyfill. intros a' E.
      apply step_closure in E. cbn in E.
      destruct E as [E|(-> & -> & ->)]; [injection E as <-; cbn|]; apply Qeq_refl.
Qed.

Lemma cancelAnimation_closed st : closed st -> closed (cancelAnimation st).
Proof.
  intro Hc. unfold cancelAnimation. destruct (animation st) as [a|] eqn:Ea.
  - intros a' E. cbn in E. injection E as <-. cbn. apply Hc. exact Ea.
  - exact Hc.
Qed.

Lemma dispatch_closed ev st : closed st -> closed (fst (dispatch ev st)).
Proof.
  intro Hc. destruct ev as [i t0 t1|e t0 t1| |now| |box]; cbn [dispatch].
  - destruct (i <? List.length (indicators st))%nat; [|exact Hc].
    unfold clickListener.
    pose proof (navigateToSlide_closed (Z.of_nat i) t0 t1 st Hc) as H.
    destruct (navigateToSlide (Z.of_nat i) t0 t1 st). exact H.
  - set (s := if wheelCancelRegistered st then cancelAnimation st else st).
    assert (Hs : closed s)
      by (subst s; destruct (wheelCancelRegistered st);
          [apply cancelAnimation_closed|]; exact Hc).
    unfold wheelListener. destruct (wheelExit e s); cbn [fst]; try exact Hs.
    pose proof (navigateToSlide_closed nextSlideIndex t0 t1 s Hs) as H.
    destruct (navigateToSlide nextSlideIndex t0 t1 s). exact H.
  - cbn. destruct (touchstartCancelRegistered st);
      [apply cancelAnimation_closed|]; exact Hc.
  - destruct (animation st) as [a|] eqn:Ea; [|exact Hc].
    destruct (frameRequested a); [|exact Hc].
    intros a' E. apply step_closure in E. cbn in E.
    destruct E as [E|(-> & -> & ->)]; [injection E as <-; cbn|]; apply Hc, Ea.
  - destruct (timeouts st) as [|[] rest]; exact Hc.
  - exact Hc.
Qed.

Lemma reachable_closed st : reachable st -> closed st.
Proof.
  induction 1 as [native tree box inds st H|ev st _ IH].
  - cbn in H. injection H as <-. intros a E. discriminate.
  - apply dispatch_closed, IH.
Qed.

Lemma between_target lo hi : between lo hi hi.
Proof.
  destruct (Qlt_le_dec hi lo); [right|left]; split;
    try apply Qle_refl; try (apply Qlt_le_weak; assumption); assumption.
Qed.

Lemma step_write_between now a st v :
  (gap a == target a - offset a)%Q ->
  startTime a <= now ->
  In (SetScrollTop v) (snd (step now a st)) ->
  between (offset a) v (target a).
Proof.
  intros Hg Ht. unfold step. destruct (interrupt a); [intros []|].
  rewrite percentage_over.
  destruct (Z.ltb_spec SCROLL_DURATION (now - startTime a)) as [Hl|Hl].
  - cbn. intros [E|[]]. injection E as <-. apply between_target.
  - cbn. intros [E|[]]. injection E as <-.
    assert (B : between (offset a)
                  (easingOutQuint 0 (inject_Z (now - startTime a)) (offset a) (gap a)
                                  (inject_Z SCROLL_DURATION))
                  (offset a + gap a)).
    { apply easing_between.
      - reflexivity.
      - unfold Qle. cbn. lia.
      - rewrite <- Zle_Qle. exact Hl. }
    assert (E : (offset a + gap a == target a)%Q) by (rewrite Hg; ring).
    unfold between in *. rewrite E in B. exact B.
Qed.

(** X12.  In a reachable state, whatever a frame writes to the scroll
    offset lies between the offset the animation started from and its
    target, provided the clock reading of the frame is not earlier than the
    start of the animation: the manual animation does not overshoot. *)
Theorem frame_writes_stay_between (now : Z) (st : State) (a : Polyfill) (v : Q) :
  reachable st ->
  animation st = Some a ->
  startTime a <= now ->
  In (SetScrollTop v) (snd (dispatch (AnimationFrame now) st)) ->
  between (offset a) v (target a).
Proof.
  intros Hr Ea Ht. cbn [dispatch]. rewrite Ea.
  destruct (frameRequested a); [|intros []].
  intro Hin.
  eapply (step_write_between now (set_frameRequested false a)); [| |exact Hin].
  - cbn. apply (reachable_closed st Hr a Ea).
  - exact Ht.
Qed.

(** ** Input while the lock is held *)

(** X13.  While the lock is held every wheel event has its default
    prevented and changes neither the index, the lock, the indicators, the
    scroller nor the timers, also when its target sits in a scrollable
    panel that has room: nothing is delegated during an animation. *)
Theorem wheel_swallowed_while_scrolling (e : WheelEvent) (t0 t1 : Z) (st : State) :
  isScrolling st = true ->
  let st' := fst (dispatch (Wheel e t0 t1) st) in
  snd (dispatch (Wheel e t0 t1) st) = [PreventDefault]
  /\ isScrolling st' = true
  /\ currentSlideIndex st' = currentSlideIndex st
  /\ indicators st' = indicators st
  /\ scroller st' = scroller st
  /\ timeouts st' = timeouts st.
Proof.
  intros Hs. cbn [dispatch].
  set (s := if wheelCancelRegistered st then cancelAnimation st else st).
  assert (H : isScrolling s = true /\ currentSlideIndex s = currentSlideIndex st
              /\ indicators s = indicators st /\ scroller s = scroller st
              /\ timeouts s = timeouts st).
  { subst s. destruct (wheelCancelRegistered st); [|auto].
    unfold cancelAnimation. destruct (animation st); cbn; auto. }
  destruct H as (H1 & H2 & H3 & H4 & H5).
  unfold wheelListener, wheelExit. rewrite H1. cbn [fst snd].
  repeat split; assumption.
Qed.


(** X14.  A touch-start event never navigates: it produces no effect and
    leaves the index, the lock, the indicators, the scroller and the timers
    as they are; all it can do is cancel the manual animation. *)
Theorem touchstart_never_navigates (st : State) :
  let st' := fst (dispatch TouchStart st) in
  snd (dispatch TouchStart st) = []
  /\ currentSlideIndex st' = currentSlideIndex st
  /\ isScrolling st' = isScrolling st
  /\ indicators st' = indicators st
  /\ scroller st' = scroller st
  /\ timeouts st' = timeouts st
  /\ (animation st' = animation st
      \/ exists a, animation st = Some a /\ animation st' = Some (cancel a)).
Proof.
  cbn [dispatch fst snd]. unfold touchstartCancelRegistered, cancelAnimation.
  destruct (animation st) as [a|] eqn:E.
  - destruct (touchstartCancel a); cbn.
    + repeat split. right. exists a. split; reflexivity.
    + repeat split. left. exact E.
  - repeat split. left. exact E.
Qed.

(** ** The order of the elements on the way up *)

Lemma allowNativeScroll_app (direction : Z) (inner outer : list Element) :
  allowNativeScroll direction (inner ++ outer)
  = allowNativeScroll direction inner || allowNativeScroll direction outer.
Proof.
  induction inner as [|el rest IH]; [reflexivity|].
  cbn [app]. rewrite !allowNativeScroll_cons, IH. now rewrite orb_assoc.
Qed.

(** X15.  The loop over the elements between the target and the scroller
    gives the same answer for the same elements in any order: where on the
    way up a scrollable panel with room sits does not matter. *)
Theorem allowNativeScroll_order_irrelevant (direction : Z) (l l' : list Element) :
  Permutation l l' ->
  allowNativeScroll direction l = allowNativeScroll direction l'.
Proof.
  induction 1 as [|x l l' _ IH|x y l|l l' l'' _ IH1 _ IH2].
  - reflexivity.
  - now rewrite !allowNativeScroll_cons, IH.
  - rewrite !allowNativeScroll_cons, !orb_assoc. f_equal. apply orb_comm.
  - now rewrite IH1.
Qed.

Lemma allowNativeScroll_order_irrelevant_witness :
  Permutation [block; panel 0] [panel 0; block]
  /\ allowNativeScroll 1 [block; panel 0] = allowNativeScroll 1 [panel 0; block].
Proof.
  assert (H : Permutation [block; panel 0] [panel 0; block]) by apply perm_swap.
  split; [exact H | exact (allowNativeScroll_order_irrelevant 1 _ _ H)].
Defined.

Lemma animation_paths_never_mix_witness :
  let st := page true 3 in
  let evs := [Click 1 0 0; AnimationFrame 16; TimeoutFired;
              Wheel (mkWheel 100 [block]) 900 900] in
  reachable st /\ hasNativeSmoothScroll st = true /\ noWrites (snd (run evs st)).
Proof.
  intros st evs.
  assert (Hr : reachable st) by apply reachable_page.
  assert (Hn : hasNativeSmoothScroll st = true) by reflexivity.
  split; [exact Hr|]. split; [exact Hn|].
  exact (proj1 (animation_paths_never_mix st evs Hr) Hn).
Defined.

Lemma frame_writes_stay_between_witness :
  let st := fst (run [Click 1 0 0] (page false 3)) in
  let a := mkPolyfill 0 0 (inject_Z 1080 - 0) (inject_Z 1080) (Some ReleaseLock)
                      false true true true in
  let v := easingOutQuint 0 (inject_Z (400 - 0)) 0 (inject_Z 1080 - 0)
                          (inject_Z SCROLL_DURATION) in
  reachable st
  /\ animation st = Some a
  /\ startTime a <= 400
  /\ In (SetScrollTop v) (snd (dispatch (AnimationFrame 400) st))
  /\ between (offset a) v (target a).
Proof.
  intros st a v.
  assert (Hr : reachable st) by apply reachable_run, reachable_page.
  assert (Ea : animation st = Some a) by reflexivity.
  assert (Ht : startTime a <= 400) by discriminate.
  assert (Hin : In (SetScrollTop v) (snd (dispatch (AnimationFrame 400) st)))
    by (left; reflexivity).
  split; [exact Hr|]. split; [exact Ea|]. split; [exact Ht|]. split; [exact Hin|].
  exact (frame_writes_stay_between 400 st a v Hr Ea Ht Hin).
Defined.

Lemma wheel_swallowed_while_scrolling_witness :
  let st := fst (run [Click 1 0 0] (page true 3)) in
  let e := mkWheel 100 [block; panel 0] in
  isScrolling st = true
  /\ delegates (scrollDirection e) (path e)
  /\ snd (dispatch (Wheel e 5 5) st) = [PreventDefault]
  /\ currentSlideIndex (fst (dispatch (Wheel e 5 5) st)) = currentSlideIndex st.
Proof.
  intros st e.
  assert (Hs : isScrolling st = true) by reflexivity.
  destruct (wheel_swallowed_while_scrolling e 5 5 st Hs) as (H1 & _ & H3 & _).
  split; [exact Hs|].
  split; [apply allowNativeScroll_delegates; reflexivity|].
  split; [exact H1 | exact H3].
Defined.

(** ** The path revealed by scrolling *)

Module SquiggleFacts.
Import Squiggle.

Lemma percentage_clamped d T : (0 <= percentage d T /\ percentage d T <= 1)%Q.
Proof.
  unfold percentage. destruct (Number.ltb 0 T); [|split; lra].
  split.
  - apply Q.min_glb; [lra | apply Q.le_max_l].
  - apply Q.le_min_l.
Qed.

Lemma percentage_top d T : (d <= 0 -> percentage d T == 0)%Q.
Proof.
  intro H. unfold percentage. destruct (Number.ltb 0 T) eqn:E; [|reflexivity].
  apply ltb_lt in E.
  assert (Hq : (d / T <= 0)%Q).
  { unfold Qdiv. rewrite <- (Qmult_0_l (/ T)).
    apply Qmult_le_compat_r; [exact H|]. apply Qlt_le_weak, Qinv_lt_0_compat, E. }
  rewrite (Q.max_l 0 (d / T)) by exact Hq.
  apply Q.min_r. lra.
Qed.

Lemma percentage_bottom d T : (0 < T -> T <= d -> percentage d T == 1)%Q.
Proof.
  intros HT H. unfold percentage. apply ltb_lt in HT as E. rewrite E.
  assert (Hq : (1 <= d / T)%Q).
  { apply Qle_shift_div_l; [exact HT | lra]. }
  rewrite (Q.max_r 0 (d / T)) by lra.
  apply Q.min_l. exact Hq.
Qed.

Lemma percentage_monotone d1 d2 T :
  (d1 <= d2 -> percentage d1 T <= percentage d2 T)%Q.
Proof.
  intro H. unfold percentage. destruct (Number.ltb 0 T) eqn:E; [|lra].
  apply ltb_lt in E.
  apply Q.min_le_compat_l. apply Q.max_le_compat_l.
  unfold Qdiv. apply Qmult_le_compat_r; [exact H|].
  apply Qlt_le_weak, Qinv_lt_0_compat, E.
Qed.

Lemma offset_bounds (st : State) (page : Page) :
  (0 <= pathLength st)%Q ->
  (0 <= offset st page /\ offset st page <= pathLength st)%Q
  /\ ((totalDistance st page <= 0)%Q -> (offset st page == pathLength st)%Q)
  /\ ((distance st page <= 0)%Q -> (offset st page == pathLength st)%Q)
  /\ ((0 < totalDistance st page)%Q ->
      (totalDistance st page <= distance st page)%Q ->
      (offset st page == 0)%Q).
Proof.
  intro HL. unfold offset.
  destruct (percentage_clamped (distance st page) (totalDistance st page)) as [P0 P1].
  split; [split|split; [|split]].
  - apply Qmult_le_0_compat; [exact HL | lra].
  - rewrite <- (Qmult_1_r (pathLength st)) at 2.
    rewrite !(Qmult_comm (pathLength st)).
    apply Qmult_le_compat_r; [lra | exact HL].
  - intro HT. unfold percentage. apply ltb_ge in HT. rewrite HT. ring.
  - intro Hd. rewrite (percentage_top _ _ Hd). ring.
  - intros HT Hd. rewrite (percentage_bottom _ _ HT Hd). ring.
Qed.

(** X17.  The further the page is scrolled, the more of the path is
    revealed: for the same scrollable distance, a larger scroll position
    gives a smaller or equal dash offset. *)
Theorem reveal_monotone (st : State) (page1 page2 : Page) :
  (0 <= pathLength st)%Q ->
  totalDistance st page1 = totalDistance st page2 ->
  (distance st page1 <= distance st page2)%Q ->
  (offset st page2 <= offset st page1)%Q.
Proof.
  intros HL HT Hd. unfold offset. rewrite HT.
  pose proof (percentage_monotone _ _ (totalDistance st page2) Hd) as H.
  rewrite !(Qmult_comm (pathLength st)).
  apply Qmult_le_compat_r; [lra | exact HL].
Qed.

Lemma updatePath_fields page st :
  pathLength (updatePath page st) = pathLength st
  /\ isInAboutSection (updatePath page st) = isInAboutSection st
  /\ rafId (updatePath page st) = None
  /\ requested (updatePath page st) = requested st
  /\ issued (updatePath page st) = issued st.
Proof. unfold updatePath. destruct (Number.ltb _ _); cbn; auto. Qed.

Lemma updatePath_tracks (page : Page) (st : State) :
  strokeDashoffset st = lastOffset st ->
  let st' := updatePath page st in
  strokeDashoffset st' = lastOffset st'
  /\ (Qabs (offset st' page - strokeDashoffset st') <= 1 # 2)%Q
  /\ (strokeDashoffset st' = strokeDashoffset st
      \/ strokeDashoffset st' = offset st page).
Proof.
  intros Hs st'. subst st'.
  assert (Ho : forall s, pathLength s = pathLength st ->
                         isInAboutSection s = isInAboutSection st ->
                         offset s page = offset st page).
  { intros s H1 H2. unfold offset, distance, totalDistance. now rewrite H1, H2. }
  destruct (updatePath_fields page st) as (F1 & F2 & _).
  rewrite (Ho _ F1 F2).
  unfold updatePath.
  destruct (Number.ltb (1 # 2) (Qabs (offset st page - lastOffset st))) eqn:E;
    cbn [strokeDashoffset lastOffset].
  - split; [reflexivity|]. split; [|right; reflexivity].
    apply Qabs_Qle_condition. split; lra.
  - split; [exact Hs|]. split; [|left; reflexivity].
    apply ltb_ge in E. rewrite Hs. exact E.
Qed.

Lemma scroll_pending st : rafId (scroll st) <> None.
Proof. unfold scroll. destruct (rafId st) eqn:E; cbn; congruence. Qed.

Lemma scroll_idle st : rafId st <> None -> scroll st = st.
Proof. unfold scroll. destruct (rafId st); congruence. Qed.

(** X19.  Once [updatePath] has run, a burst of scroll events requests
    one frame: the first event requests it, every further one before the
    frame runs changes nothing, and none of them touches the dash
    offset. *)
Theorem scroll_burst_requests_one_frame (n : nat) (page : Page) (st : State) :
  let idle := updatePath page st in
  Nat.iter (S n) scroll idle = scroll idle
  /\ requested (scroll idle) = requested st ++ [S (issued st)]
  /\ lastOffset (scroll idle) = lastOffset idle
  /\ strokeDashoffset (scroll idle) = strokeDashoffset idle.
Proof.
  intro idle. split.
  - induction n as [|n IH]; [reflexivity|].
    change (Nat.iter (S (S n)) scroll idle) with (scroll (Nat.iter (S n) scroll idle)).
    rewrite IH. apply scroll_idle, scroll_pending.
  - destruct (updatePath_fields page st) as (_ & _ & F3 & F4 & F5).
    fold idle in F3, F4, F5. unfold scroll. rewrite F3. cbn. rewrite F4, F5. auto.
Qed.

Lemma dispatch_displayed ev st :
  (0 <= pathLength st)%Q ->
  strokeDashoffset st = lastOffset st ->
  (0 <= strokeDashoffset st /\ strokeDashoffset st <= pathLength st)%Q ->
  let st' := dispatch ev st in
  pathLength st' = pathLength st
  /\ strokeDashoffset st' = lastOffset st'
  /\ (0 <= strokeDashoffset st' /\ strokeDashoffset st' <= pathLength st)%Q.
Proof.
  intros HL Hs Hb.
  assert (U : forall page s, pathLength s = pathLength st ->
                strokeDashoffset s = strokeDashoffset st ->
                lastOffset s = lastOffset st ->
                pathLength (updatePath page s) = pathLength st
                /\ strokeDashoffset (updatePath page s) = lastOffset (updatePath page s)
                /\ (0 <= strokeDashoffset (updatePath page s)
                    /\ strokeDashoffset (updatePath page s) <= pathLength st)%Q).
  { intros page s E1 E2 E3.
    assert (Hs' : strokeDashoffset s = lastOffset s) by congruence.
    destruct (updatePath_tracks page s Hs') as (T1 & _ & T3).
    destruct (updatePath_fields page s) as (F1 & _).
    split; [congruence|]. split; [exact T1|].
    destruct T3 as [-> | ->].
    - rewrite E2. exact Hb.
    - rewrite <- E1. apply offset_bounds. rewrite E1. exact HL. }
  destruct ev as [|page|page]; cbn [dispatch].
  - unfold scroll. destruct (rafId st); cbn; auto.
  - destruct (requested st); [cbn; auto|]. apply U; reflexivity.
  - apply U; reflexivity.
Qed.

(** X20.  Whatever scroll events, frames and timers follow the set-up of
    a path of non-negative length, the dash offset shown equals
    [lastOffset] and stays between 0 (fully revealed) and the path length
    (fully hidden). *)
Theorem displayed_offset_within_path (svg : bool) (aboutSection : option bool)
    (len : Q) (st0 : State) (evs : list Event) :
  (0 <= len)%Q ->
  DOMContentLoaded svg aboutSection (Some len) = Some st0 ->
  let st := run evs st0 in
  pathLength st = len
  /\ strokeDashoffset st = lastOffset st
  /\ (0 <= strokeDashoffset st /\ strokeDashoffset st <= len)%Q.
Proof.
  intros HL H0.
  assert (I0 : pathLength st0 = len /\ strokeDashoffset st0 = lastOffset st0
               /\ (0 <= strokeDashoffset st0 /\ strokeDashoffset st0 <= len)%Q).
  { unfold DOMContentLoaded in H0. destruct svg; [|discriminate].
    injection H0 as <-. cbn. repeat split; try exact HL. apply Qle_refl. }
  clear H0. revert st0 I0. unfold run.
  induction evs as [|ev evs IH]; intros st0 I0; cbn [fold_left].
  - exact I0.
  - apply IH. destruct I0 as (E & I1 & I2).
    rewrite <- E in HL, I2.
    destruct (dispatch_displayed ev st0 HL I1 I2) as (D1 & D2 & D3).
    rewrite D1, E in *. auto.
Qed.


(** X16.  For a path of non-negative length the offset [updatePath]
    computes lies between 0 and the path length.  It is the whole length
    (path hidden) when there is no scrollable distance or the page is at
    its top, and 0 (path revealed) when the page is scrolled to the end. *)
Theorem offset_within_path (st : State) (page : Page) :
  (0 <= pathLength st)%Q ->
  (0 <= offset st page /\ offset st page <= pathLength st)%Q
  /\ ((totalDistance st page <= 0)%Q -> (offset st page == pathLength st)%Q)
  /\ ((distance st page <= 0)%Q -> (offset st page == pathLength st)%Q)
  /\ ((0 < totalDistance st page)%Q ->
      (totalDistance st page <= distance st page)%Q ->
      (offset st page == 0)%Q).
Proof. exact (offset_bounds st page). Qed.

Lemma offset_within_path_witness :
  let st := mkState 500 true None 500 500 [] 0 in
  let page := mkPage 300 2000 800 0 0 0 in
  (0 <= pathLength st)%Q
  /\ (0 <= offset st page /\ offset st page <= pathLength st)%Q.
Proof.
  intros st page.
  assert (H : (0 <= pathLength st)%Q) by discriminate.
  split; [exact H | exact (proj1 (offset_within_path st page H))].
Defined.

Lemma reveal_monotone_witness :
  let st := mkState 500 true None 500 500 [] 0 in
  let page1 := mkPage 300 2000 800 0 0 0 in
  let page2 := mkPage 900 2000 800 0 0 0 in
  (0 <= pathLength st)%Q
  /\ totalDistance st page1 = totalDistance st page2
  /\ (distance st page1 <= distance st page2)%Q
  /\ (offset st page2 <= offset st page1)%Q.
Proof.
  intros st page1 page2.
  assert (H : (0 <= pathLength st)%Q) by discriminate.
  assert (HT : totalDistance st page1 = totalDistance st page2) by reflexivity.
  assert (Hd : (distance st page1 <= distance st page2)%Q) by discriminate.
  split; [exact H|]. split; [exact HT|]. split; [exact Hd|].
  exact (reveal_monotone st page1 page2 H HT Hd).
Defined.

Lemma displayed_offset_within_path_witness :
  let st0 := mkState 500 true None 500 500 [] 0 in
  let evs := [Scroll; Scroll; AnimationFrame (mkPage 300 2000 800 0 0 0);
              Timeout (mkPage 1200 2000 800 0 0 0)] in
  (0 <= 500)%Q
  /\ DOMContentLoaded true (Some true) (Some 500%Q) = Some st0
  /\ (0 <= strokeDashoffset (run evs st0)
      /\ strokeDashoffset (run evs st0) <= 500)%Q.
Proof.
  intros st0 evs.
  assert (H : (0 <= 500)%Q) by discriminate.
  assert (H0 : DOMContentLoaded true (Some true) (Some 500%Q) = Some st0)
    by reflexivity.
  split; [exact H|]. split; [exact H0|].
  exact (proj2 (proj2 (displayed_offset_within_path true (Some true) 500 st0 evs H H0))).
Defined.

End SquiggleFacts.

(** ** The highlight that follows the pointer *)

Module HoverFacts.
Import Hover.

Lemma without_single h : without h [h] = [].
Proof. unfold without. cbn. now rewrite Nat.eqb_refl. Qed.

Lemma clearTimeout_settled st :
  settled st -> clearTimeout (fadeTimeout st) (timers st) = [].
Proof.
  intros [_ [E|(h & Eh & E)]]; rewrite E.
  - unfold clearTimeout. destruct (fadeTimeout st); reflexivity.
  - rewrite Eh. apply without_single.
Qed.

Lemma dispatch_settled ev st : settled st -> settled (dispatch ev st).
Proof.
  intro Hs. pose proof Hs as [H1 H2].
  destruct ev as [x y rect|handle]; cbn [dispatch].
  - unfold mousemove. destruct (isOver x y rect).
    + destruct (isHovering st) eqn:Eh; cbn [negb fst]; [exact Hs|].
      rewrite (clearTimeout_settled st Hs). split; cbn; auto.
    + destruct (isHovering st) eqn:Eh; cbn [fst]; [|exact Hs].
      destruct (H1 eq_refl) as [Et _]. rewrite Et.
      split; cbn; [discriminate|]. right. eexists. split; reflexivity.
  - unfold fade. destruct (existsb (Nat.eqb handle) (timers st)) eqn:E; [|exact Hs].
    destruct H2 as [Et|(h & Eh & Et)].
    + rewrite Et in E. discriminate.
    + rewrite Et in E. cbn in E. rewrite orb_false_r in E.
      apply Nat.eqb_eq in E. subst handle.
      assert (Hh : isHovering st = false).
      { destruct (isHovering st); [|reflexivity].
        destruct (H1 eq_refl) as [Et' _]. congruence. }
      rewrite Et, without_single. split; cbn; [congruence | auto].
Qed.

Lemma run_settled evs st : settled st -> settled (run evs st).
Proof.
  unfold run. revert st. induction evs as [|ev evs IH]; intros st H; cbn.
  - exact H.
  - apply IH, dispatch_settled, H.
Qed.

Lemma initial_settled : settled initial.
Proof. split; cbn; [discriminate | auto]. Qed.

(** X21.  Whatever pointer moves and timers precede, at most one fade is
    pending, and while the pointer is over the element (its padded zone
    included) the element is fully opaque and no fade is pending, so no
    timer that fires can hide it. *)
Theorem hovered_element_stays_visible (evs : list Event) :
  let st := run evs initial in
  (List.length (timers st) <= 1)%nat
  /\ (isHovering st = true ->
      opacity st = Some 1%Q
      /\ timers st = []
      /\ forall handle, opacity (dispatch (TimerFired handle) st) = Some 1%Q).
Proof.
  intro st. destruct (run_settled evs initial initial_settled) as [H1 H2].
  fold st in H1, H2. split.
  - destruct H2 as [->|(h & _ & ->)]; cbn; lia.
  - intro Hh. destruct (H1 Hh) as [Et Eo]. repeat split; try assumption.
    intro handle. cbn [dispatch]. unfold fade. rewrite Et. cbn. exact Eo.
Qed.

(** X22.  When the pointer leaves the zone of a hovered element, the
    element stays opaque for the moment, no setter is called, and exactly
    one fade timer is set; when that timer fires the opacity becomes 0 and
    nothing remains pending. *)
Theorem leaving_fades_after_the_delay (x y : float) (rect : Rect) (evs : list Event) :
  let st := run evs initial in
  isHovering st = true ->
  isOver x y rect = false ->
  let left := fst (mousemove x y rect st) in
  exists handle,
    timers left = [handle]
    /\ snd (mousemove x y rect st) = []
    /\ opacity left = Some 1%Q
    /\ opacity (fade handle left) = Some 0%Q
    /\ timers (fade handle left) = [].
Proof.
  intros st Hh Ho lft.
  destruct (run_settled evs initial initial_settled) as [H1 _]. fold st in H1.
  destruct (H1 Hh) as [Et Eo].
  subst lft. unfold mousemove. rewrite Ho, Hh. cbn [fst snd].
  rewrite Et. cbn [app]. exists (S (issued st)).
  unfold fade. cbn [timers existsb]. rewrite Nat.eqb_refl. cbn [orb].
  cbn [opacity timers]. rewrite without_single.
  repeat split. exact Eo.
Qed.

Lemma leaving_fades_after_the_delay_witness :
  let rect := mkRect 0 0 100 40 100 40 in
  let evs := [MouseMove 10 10 rect] in
  isHovering (run evs initial) = true
  /\ isOver 500 500 rect = false
  /\ exists handle,
       timers (fst (mousemove 500 500 rect (run evs initial))) = [handle]
       /\ opacity (fade handle (fst (mousemove 500 500 rect (run evs initial))))
          = Some 0%Q.
Proof.
  intros rect evs.
  assert (Hh : isHovering (run evs initial) = true) by reflexivity.
  assert (Ho : isOver 500 500 rect = false) by reflexivity.
  destruct (leaving_fades_after_the_delay 500 500 rect evs Hh Ho)
    as (handle & H1 & _ & _ & H4 & _).
  split; [exact Hh|]. split; [exact Ho|].
  exists handle. split; [exact H1 | exact H4].
Defined.

End HoverFacts.

(** ** C5, C9: the numbers as the engine computes them *)

Module Binary64Facts.
Import Binary64.

#[local] Set Warnings "-inexact-float".






(** C9.  A call of [step] in an animation that was not interrupted, [t]
    milliseconds after its start: while [t] does not exceed the 800 ms
    duration it writes the binary64 value of
    [gap * ((t/duration - 1)^5 + 1) + offset], each operation rounded and
    the fifth power taken as four multiplications from the left, and asks
    for another frame; once [t] exceeds the duration it writes the target
    itself, detaches, asks for no further frame and calls the completion
    callback. *)
Theorem step_eases_then_snaps_rounded (now : Z) (a : Closure) :
  interrupt a = false ->
  let t := now - startTime a in
  let u := (Number.ofZ t / Number.ofZ SCROLL_DURATION - 1)%float in
  (t <= SCROLL_DURATION ->
   step now a
   = (a, [SetScrollTop (gap a * (u * u * u * u * u + 1) + offset a)%float;
          RequestAnimationFrame]))
  /\ (SCROLL_DURATION < t ->
      fst (step now a) = cleanup a
      /\ wheelCancel (fst (step now a)) = false
      /\ touchstartCancel (fst (step now a)) = false
      /\ snd (step now a)
         = SetScrollTop (target a)
             :: match onComplete a with
                | Some cb => [Invoke cb]
                | None => []
                end
      /\ (forall cb, onComplete a = Some cb ->
            snd (step now a) = [SetScrollTop (target a); Invoke cb])
      /\ ~ In RequestAnimationFrame (snd (step now a))).
Proof.
  intros Hi t u. unfold step. fold t. rewrite Hi, percentage_over.
  split; intro Ht.
  - destruct (Z.ltb_spec SCROLL_DURATION t); [lia|]. reflexivity.
  - destruct (Z.ltb_spec SCROLL_DURATION t); [|lia].
    cbn [fst snd]. repeat split.
    + intros cb E. now rewrite E.
    + intro H'. destruct (onComplete a); cbn in H'; intuition discriminate.
Qed.

Lemma step_eases_then_snaps_rounded_witness :
  let a := mkClosure 0 0 1080 1080 (Some ReleaseLock) false true true in
  interrupt a = false
  /\ 400 - startTime a <= SCROLL_DURATION
  /\ SCROLL_DURATION < 801 - startTime a
  /\ snd (step 400 a) = [SetScrollTop 1046.25; RequestAnimationFrame]
  /\ snd (step 801 a) = [SetScrollTop 1080; Invoke ReleaseLock].
Proof.
  intro a.
  assert (Hi : interrupt a = false) by reflexivity.
  assert (H4 : 400 - startTime a <= SCROLL_DURATION) by discriminate.
  assert (H8 : SCROLL_DURATION < 801 - startTime a) by reflexivity.
  destruct (step_eases_then_snaps_rounded 400 a Hi) as [E4 _].
  destruct (step_eases_then_snaps_rounded 801 a Hi) as [_ E8].
  split; [exact Hi|]. split; [exact H4|]. split; [exact H8|]. split.
  - rewrite (E4 H4). reflexivity.
  - destruct (E8 H8) as (_ & _ & _ & _ & E & _). exact (E ReleaseLock eq_refl).
Defined.

(** C9 for every frame and in exact arithmetic.  The frame of a cancelled
    animation writes nothing, 400 ms after the start; and 16 ms after the
    start of an animation from 0 to 1080 the value written is
    103.7655394560002, which is not the exact value of the curve there. *)
Lemma frame_skipped_or_rounded :
  let a := mkClosure 0 0 1080 1080 (Some ReleaseLock) false true true in
  (400 - startTime (cancel a) <= SCROLL_DURATION
   /\ snd (step 400 (cancel a)) = [])
  /\ (16 - startTime a <= SCROLL_DURATION
      /\ snd (step 16 a) = [SetScrollTop 103.7655394560002; RequestAnimationFrame]
      /\ ~ (Number.toQ 103.7655394560002
             == 1080 * ((inject_Z 16 / inject_Z SCROLL_DURATION - 1) ^ 5 + 1) + 0)%Q).
Proof.
  intro a. split; [split; [discriminate | reflexivity]|].
  split; [discriminate|]. split; [reflexivity|].
  unfold Qeq. vm_compute. discriminate.
Qed.

(** The rounded quotient exceeds 1 exactly when more than the duration
    has elapsed. *)
Lemma forallFrom_spec (p : Z -> bool) (lo : Z) (n : nat) :
  forallFrom p lo n = true -> forall z, lo <= z < lo + Z.of_nat n -> p z = true.
Proof.
  revert lo. induction n as [|k IH]; intros lo H z Hz.
  - cbn in Hz. lia.
  - cbn [forallFrom] in H. apply andb_true_iff in H. destruct H as [H0 H1].
    destruct (Z.eq_dec z lo) as [->|Hne]; [exact H0|].
    apply (IH (lo + 1) H1). lia.
Qed.

Lemma percentageOver_exact (elapsed : Z) :
  -60000 <= elapsed <= 600000 ->
  percentageOver elapsed = (SCROLL_DURATION <? elapsed).
Proof.
  intro H.
  assert (A : forallFrom (fun e => Bool.eqb (percentageOver e) (SCROLL_DURATION <? e))
                         (-60000) (Z.to_nat 660001) = true)
    by (vm_compute; reflexivity).
  apply eqb_prop. apply (forallFrom_spec _ _ _ A). lia.
Qed.

End Binary64Facts.

(** ** The dash offset as the engine computes it *)

Module Squiggle64Facts.
Import Squiggle64.

#[local] Set Warnings "-inexact-float".

Lemma half_spec : Prim2SF 0.5 = S754_finite false 4503599627370496 (-53).
Proof. reflexivity. Qed.

(** A value is never more than one half away from itself, whatever it
    is: for NaN and the infinities the difference is NaN and the
    comparison fails. *)
Lemma no_move_below_threshold (o : float) :
  (0.5 <? abs (o - o))%float = false.
Proof.
  rewrite FloatAxioms.ltb_spec, FloatAxioms.abs_spec, FloatAxioms.sub_spec, half_spec.
  destruct (Prim2SF o) as [s|s| |s m e].
  - destruct s; reflexivity.
  - destruct s; reflexivity.
  - reflexivity.
  - unfold SF64sub, SFsub. rewrite Z.min_id. unfold shl_align.
    rewrite Z.sub_diag. cbn [fst]. reflexivity.
Qed.

(** X18.  If the dash offset shown equals [lastOffset] before
    [updatePath], it does so after; the listener's test
    [Math.abs(offset - lastOffset) > 0.5], on the rounded numbers, fails
    for the value then shown; and that value is either the one shown
    before or the offset just computed. *)
Theorem updatePath_tracks_rounded (page : Page) (st : State) :
  strokeDashoffset st = lastOffset st ->
  let st' := updatePath page st in
  strokeDashoffset st' = lastOffset st'
  /\ (0.5 <? abs (offset st' page - strokeDashoffset st'))%float = false
  /\ (strokeDashoffset st' = strokeDashoffset st
      \/ strokeDashoffset st' = offset st page).
Proof.
  intros Hs st'. subst st'.
  assert (Ho : offset (updatePath page st) page = offset st page).
  { unfold updatePath. destruct (0.5 <? abs (offset st page - lastOffset st))%float;
      reflexivity. }
  rewrite Ho. unfold updatePath.
  destruct (0.5 <? abs (offset st page - lastOffset st))%float eqn:E;
    cbn [strokeDashoffset lastOffset].
  - split; [reflexivity|]. split; [apply no_move_below_threshold | right; reflexivity].
  - split; [exact Hs|]. split; [rewrite Hs; exact E | left; reflexivity].
Qed.

(** A path of length 600 in a section with 1200 pixels to scroll, at
    scroll positions 175 and then 176: the offsets are 512.5 and
    511.99999999999994, more than one half apart for the listener, and the
    second replaces the first. *)
Lemma updatePath_tracks_rounded_witness :
  let st := updatePath (mkPage 175 2000 800 0 0 0) (mkState 600 true None 600 600) in
  let page := mkPage 176 2000 800 0 0 0 in
  strokeDashoffset st = lastOffset st
  /\ strokeDashoffset st = 512.5%float
  /\ strokeDashoffset (updatePath page st) = lastOffset (updatePath page st)
  /\ strokeDashoffset (updatePath page st) = 511.99999999999994%float.
Proof.
  intros st page.
  assert (Hs : strokeDashoffset st = lastOffset st) by reflexivity.
  destruct (updatePath_tracks_rounded page st Hs) as (H1 & _ & _).
  split; [exact Hs|]. split; [reflexivity|]. split; [exact H1 | reflexivity].
Defined.

(** [updatePath] run twice on the same page does what one run does: the
    second run assigns nothing. *)
Lemma updatePath_twice (page : Page) (st : State) :
  updatePath page (updatePath page st) = updatePath page st.
Proof.
  assert (Ho : forall s, pathLength s = pathLength st ->
                         isInAboutSection s = isInAboutSection st ->
                         offset s page = offset st page).
  { intros s H1 H2. unfold offset, distance, totalDistance. now rewrite H1, H2. }
  destruct (0.5 <? abs (offset st page - lastOffset st))%float eqn:E.
  - assert (U : updatePath page st
                = mkState (pathLength st) (isInAboutSection st) None
                          (offset st page) (offset st page))
      by (unfold updatePath; now rewrite E).
    rewrite U. unfold updatePath. rewrite Ho by reflexivity. cbn [lastOffset].
    now rewrite no_move_below_threshold.
  - assert (U : updatePath page st
                = mkState (pathLength st) (isInAboutSection st) None
                          (lastOffset st) (strokeDashoffset st))
      by (unfold updatePath; now rewrite E).
    rewrite U. unfold updatePath. rewrite Ho by reflexivity. cbn [lastOffset].
    now rewrite E.
Qed.

End Squiggle64Facts.

(** ** The pointer at a rounded edge *)

Module HoverEdge.
Import Hover.

#[local] Set Warnings "-inexact-float".

(** With the right side of the rectangle at 0.1, the pointer at 50.1 is
    further than 50 from it in exact arithmetic, and over the element for
    the listener, whose sum [rect.right + 50] rounds to 50.1. *)
Lemma isOver_at_a_rounded_edge :
  isOver 50.1 5 (mkRect 0 0 0.1 10 0.1 10) = true
  /\ (Number.toQ 0.1 + 50 < Number.toQ 50.1)%Q.
Proof. split; vm_compute; reflexivity. Qed.

End HoverEdge.
